(** * Fast-marching inpainting: the [inpaint_fmm] wrapper of
    [skimage/restoration/inpainting.py] and the marching core it drives.

    The wrapper is embedded statement by statement in a small state-and-error
    monad over a store of array objects; the Cython core [_inpaint_fmm] and the
    conversion [img_as_ubyte] are not part of the sources at hand: the
    conversion is a parameter of the development, the core is modelled from
    its written specification. *)

From Stdlib Require Import List ZArith QArith Qround Qabs Lia Lqa Bool Arith.
Import ListNotations.

Set Implicit Arguments.
Local Open Scope nat_scope.

(** ** Arrays *)

(** The element types the wrapper meets. *)
Inductive dtype : Type := np_bool | np_uint8 | np_double | np_other.

(** A numpy array: its shape, its element type and its row-major buffer.
    Every element is held as a rational; an integer element [z] is
    [inject_Z z]. *)
Record ndarray : Type := mk_ndarray {
  shape : list nat;
  dtype_of : dtype;
  data : list Q
}.

Definition size_of (sh : list nat) : nat := fold_right Nat.mul 1 sh.

Definition ndim (a : ndarray) : nat := length (shape a).

Definition well_formed (a : ndarray) : Prop :=
  length (data a) = size_of (shape a).

(** Number of rows and columns of a 2-D array (0 where the axis is missing). *)
Definition nrows (a : ndarray) : nat := nth 0 (shape a) 0.
Definition ncols (a : ndarray) : nat := nth 1 (shape a) 0.

(** [a[i, j]] of a 2-D array. *)
Definition get2 (a : ndarray) (i j : nat) : Q :=
  nth (i * ncols a + j) (data a) 0%Q.

(** The row-major buffer of an [R x C] array given element by element. *)
Definition tabulate2 {A : Type} (R C : nat) (f : nat -> nat -> A) : list A :=
  flat_map (fun i => map (f i) (seq 0 C)) (seq 0 R).

Definition shape_eqb (s t : list nat) : bool :=
  if list_eq_dec Nat.eq_dec s t then true else false.

(** Truncation toward zero, the way a C cast reads a double. *)
Definition Qtrunc (q : Q) : Z :=
  if Qle_bool 0%Q q then Qfloor q else Qceiling q.

(** The value stored when [q] is assigned into an array of type [dt]. *)
Definition cast_to (dt : dtype) (q : Q) : Q :=
  match dt with
  | np_uint8 => inject_Z (Qtrunc q mod 256)
  | np_bool => if Qeq_bool q 0%Q then 0%Q else 1%Q
  | np_double | np_other => q
  end.

(** [np.zeros(sh, dtype=dt)]. *)
Definition zeros (sh : list nat) (dt : dtype) : ndarray :=
  mk_ndarray sh dt (repeat 0%Q (size_of sh)).

(** Is [(i, j)] inside the slice [(slice(1, -1), slice(1, -1))] of an
    [R x C] array? *)
Definition in_inner (R C i j : nat) : bool :=
  (1 <=? i) && (i + 1 <? R) && (1 <=? j) && (j + 1 <? C).

(** [dst[inner] = src] on the buffer of [dst]: the inner window takes the
    elements of [src], cast to the type of [dst]; the ring keeps its value. *)
Definition set_inner (dst src : ndarray) : ndarray :=
  mk_ndarray (shape dst) (dtype_of dst)
    (tabulate2 (nrows dst) (ncols dst) (fun i j =>
       if in_inner (nrows dst) (ncols dst) i j
       then cast_to (dtype_of dst) (get2 src (i - 1) (j - 1))
       else get2 dst i j)).

(** [a[inner]]: the window without the outer ring. *)
Definition get_inner (a : ndarray) : ndarray :=
  mk_ndarray [nrows a - 2; ncols a - 2] (dtype_of a)
    (tabulate2 (nrows a - 2) (ncols a - 2) (fun i j => get2 a (i + 1) (j + 1))).

(** [np.clip] on one element: [minimum(maximum(q, lo), hi)]. *)
Definition clip1 (lo hi q : Q) : Q :=
  let m := if Qle_bool q lo then lo else q in
  if Qle_bool hi m then hi else m.

Definition clip (lo hi : Q) (a : ndarray) : ndarray :=
  mk_ndarray (shape a) (dtype_of a) (map (clip1 lo hi) (data a)).

(** [np.round] on one element: to the nearest integer, ties to even. *)
Definition round_half_even (q : Q) : Z :=
  let f := Qfloor q in
  match Qcompare (q - inject_Z f)%Q (1 # 2)%Q with
  | Lt => f
  | Gt => (f + 1)%Z
  | Eq => if Z.even f then f else (f + 1)%Z
  end.

Definition np_round (a : ndarray) : ndarray :=
  mk_ndarray (shape a) (dtype_of a)
    (map (fun q => inject_Z (round_half_even q)) (data a)).

(** [a.astype(dt)]. *)
Definition astype (dt : dtype) (a : ndarray) : ndarray :=
  mk_ndarray (shape a) dt (map (cast_to dt) (data a)).

(** ** Objects, calls and exceptions *)

Definition loc : Type := nat.

(** Where a [ValueError] is raised: the two explicit checks of the wrapper
    (dimensions of mask and image do not match; radius must be greater than
    0), inside the call [img_as_ubyte(image)], the unpacking
    [rows, cols = image.shape], an assignment whose right-hand side does not
    fit the window, and inside the call of the core. *)
Inductive raise_site : Type :=
  | DimsMismatch | BadRadius | Conversion | Unpack | Broadcast | Core.

(** [InternalFault] is an exception of another class that comes out of the
    core. *)
Inductive exn : Type :=
  | ValueError (site : raise_site)
  | InternalFault.

(** The calls the wrapper makes to its collaborators, in order, with the
    arrays they are handed as they are at the time of the call. *)
Inductive call : Type :=
  | Call_img_as_ubyte (image : ndarray)
  | Call_zeros (sh : list nat) (dt : dtype)
  | Call_inpaint_fmm (inpainted inpainted_mask : ndarray) (radius : Z)
  | Call_clip
  | Call_round
  | Call_astype.

Record world : Type := mk_world {
  heap : list ndarray;
  calls : list call
}.

Inductive outcome (A : Type) : Type :=
  | Return (a : A)
  | Raise (e : exn).
Arguments Raise {A} e.

Definition M (A : Type) : Type := world -> outcome A * world.

Definition ret {A} (a : A) : M A := fun w => (Return a, w).
Definition raise {A} (e : exn) : M A := fun w => (Raise e, w).
Definition bind {A B} (m : M A) (k : A -> M B) : M B :=
  fun w => match m w with
           | (Return a, w') => k a w'
           | (Raise e, w') => (Raise e, w')
           end.

Notation "x <- m ;; k" := (bind m (fun x => k))
  (at level 61, m at next level, right associativity).
Notation "m ;;; k" := (bind m (fun _ => k))
  (at level 61, right associativity).

Definition empty_array : ndarray := mk_ndarray [] np_other [].

(** Reading, allocating and overwriting an object. *)
Definition read (l : loc) : M ndarray :=
  fun w => (Return (nth l (heap w) empty_array), w).

Definition alloc (a : ndarray) : M loc :=
  fun w => (Return (length (heap w)), mk_world (heap w ++ [a]) (calls w)).

Fixpoint update {A : Type} (h : list A) (l : nat) (a : A) : list A :=
  match h, l with
  | [], _ => []
  | _ :: t, O => a :: t
  | x :: t, S l' => x :: update t l' a
  end.

Definition write (l : loc) (a : ndarray) : M unit :=
  fun w => (Return tt, mk_world (update (heap w) l a) (calls w)).

Definition log (c : call) : M unit :=
  fun w => (Return tt, mk_world (heap w) (calls w ++ [c])).

(** ** The wrapper *)

Section Wrapper.

(** [skimage.util.img_as_ubyte]: whether it raises a [ValueError] on its
    argument (it does on a float image with a value outside [-1, 1], for
    one) and, when it does not, the array it returns and whether it hands
    back its argument object instead of a new one. *)
Variable img_as_ubyte : ndarray -> ndarray.
Variable ubyte_raises : ndarray -> bool.
Variable ubyte_same_object : ndarray -> bool.

(** [_inpaint_fmm(inpainted, inpainted_mask, radius)]: the buffer it leaves
    in [inpainted], or [None] when it raises; in that case, whether what it
    raises is a [ValueError]. *)
Variable fmm_core : ndarray -> ndarray -> Z -> option (list Q).
Variable fmm_core_rejects : ndarray -> ndarray -> Z -> bool.

Definition call_img_as_ubyte (image : loc) : M loc :=
  a <- read image ;;
  log (Call_img_as_ubyte a) ;;;
  if ubyte_raises a then raise (ValueError Conversion)
  else if ubyte_same_object a then ret image else alloc (img_as_ubyte a).

(** What comes out of a core that raises. *)
Definition core_failure (a m : ndarray) (radius : Z) : exn :=
  if fmm_core_rejects a m radius then ValueError Core else InternalFault.

Definition np_zeros (sh : list nat) (dt : dtype) : M loc :=
  log (Call_zeros sh dt) ;;;
  alloc (zeros sh dt).

(** [dst[inner] = src]; the right-hand side must have the window's shape. *)
Definition assign_inner (dst src : loc) : M unit :=
  d <- read dst ;;
  s <- read src ;;
  if shape_eqb (shape s) [nrows d - 2; ncols d - 2]
  then write dst (set_inner d s)
  else raise (ValueError Broadcast).

Definition call_core (inpainted inpainted_mask : loc) (radius : Z) : M unit :=
  a <- read inpainted ;;
  m <- read inpainted_mask ;;
  log (Call_inpaint_fmm a m radius) ;;;
  match fmm_core a m radius with
  | Some buf => write inpainted (mk_ndarray (shape a) (dtype_of a) buf)
  | None => raise (core_failure a m radius)
  end.

(** [np.clip(a, lo, hi, out)] with [out] the array itself. *)
Definition np_clip (a : loc) (lo hi : Q) (out : loc) : M unit :=
  x <- read a ;;
  log Call_clip ;;;
  write out (clip lo hi x).

Definition inpaint_fmm (image mask : loc) (radius : Z) : M loc :=
  img <- read image ;;
  msk <- read mask ;;
  if negb (shape_eqb (shape img) (shape msk))
  then raise (ValueError DimsMismatch)
  else if (radius <? 1)%Z
  then raise (ValueError BadRadius)
  else
    image <- call_img_as_ubyte image ;;
    img <- read image ;;
    match shape img with
    | [rows; cols] =>
        inpainted <- np_zeros [rows + 2; cols + 2] np_double ;;
        inpainted_mask <- np_zeros [rows + 2; cols + 2] np_uint8 ;;
        assign_inner inpainted image ;;;
        assign_inner inpainted_mask mask ;;;
        call_core inpainted inpainted_mask radius ;;;
        np_clip inpainted 0%Q 255%Q inpainted ;;;
        a <- read inpainted ;;
        log Call_round ;;;
        rounded <- alloc (np_round (get_inner a)) ;;
        r <- read rounded ;;
        log Call_astype ;;;
        alloc (astype np_uint8 r)
    | _ => raise (ValueError Unpack)
    end.

End Wrapper.

(** ** The marching core *)

(** Classification of a pixel of the working grid. *)
Inductive pstate : Type := KNOWN | BAND | UNKNOWN.

Definition pstate_eqb (a b : pstate) : bool :=
  match a, b with
  | KNOWN, KNOWN | BAND, BAND | UNKNOWN, UNKNOWN => true
  | _, _ => false
  end.

Definition coord : Type := (nat * nat)%type.

Definition coord_eqb (p q : coord) : bool :=
  (fst p =? fst q) && (snd p =? snd q).

(** The four axis neighbours of a coordinate; one that would leave the grid
    through its upper or left edge does not exist. *)
Definition up (p : coord) : option coord :=
  if fst p =? 0 then None else Some (fst p - 1, snd p).
Definition down (p : coord) : option coord := Some (fst p + 1, snd p).
Definition left (p : coord) : option coord :=
  if snd p =? 0 then None else Some (fst p, snd p - 1).
Definition right (p : coord) : option coord := Some (fst p, snd p + 1).

Fixpoint somes {A : Type} (l : list (option A)) : list A :=
  match l with
  | [] => []
  | Some a :: t => a :: somes t
  | None :: t => somes t
  end.

Section Core.

(** The arithmetic of arrival times is floating point with a square root; the
    core is stated over any type of times, with the order and the two forms of
    the Eikonal update supplied by the instance. *)
Variable time : Type.
Variable t_zero : time.
Variable t_ltb : time -> time -> bool.
(** Update from one informative axis, and from both. *)
Variable solve_one : time -> time.
Variable solve_two : time -> time -> time.

(** Modelled from the spec: the Grid & State Store of section 4.1. A pixel
    holds its state, its arrival time ([None] is +infinity), its intensity
    and whether the synthesizer has already given it a value. *)
Record cell : Type := mk_cell {
  state : pstate;
  arrival : option time;
  intensity : Q;
  synthesized : bool
}.

Record store : Type := mk_store {
  srows : nat;
  scols : nat;
  cells : list cell
}.

Definition in_bounds (s : store) (p : coord) : bool :=
  (fst p <? srows s) && (snd p <? scols s).

Definition index (s : store) (p : coord) : nat := fst p * scols s + snd p.

(** Indexed read and write; a coordinate outside the grid is rejected. *)
Definition get_cell (s : store) (p : coord) : option cell :=
  if in_bounds s p then nth_error (cells s) (index s p) else None.

Definition set_cell (s : store) (p : coord) (c : cell) : store :=
  if in_bounds s p
  then mk_store (srows s) (scols s) (update (cells s) (index s p) c)
  else s.

Definition state_at (s : store) (p : coord) : option pstate :=
  option_map state (get_cell s p).

Definition has_state (s : store) (st : pstate) (p : coord) : bool :=
  match state_at s p with
  | Some x => pstate_eqb x st
  | None => false
  end.

(** The 4-connected neighbours of [p] that lie in the grid. *)
Definition neighbors (s : store) (p : coord) : list coord :=
  filter (in_bounds s) (somes [up p; down p; left p; right p]).

(** Modelled from the spec: the store of section 4.1 built from the padded
    intensity array and the padded mask: a pixel whose mask is zero is KNOWN
    at time 0 with the given intensity, a masked pixel is UNKNOWN at time
    +infinity. *)
Definition init_cell (img msk : ndarray) (i j : nat) : cell :=
  if Qeq_bool (get2 msk i j) 0%Q
  then mk_cell KNOWN (Some t_zero) (get2 img i j) false
  else mk_cell UNKNOWN None (get2 img i j) false.

Definition init_store (img msk : ndarray) : store :=
  mk_store (nrows img) (ncols img)
    (tabulate2 (nrows img) (ncols img) (init_cell img msk)).

(** Modelled from the spec: the Eikonal Solver of section 4.2. *)

(** The arrival time of a resolved (KNOWN or BAND) pixel. *)
Definition resolved_time (s : store) (o : option coord) : option time :=
  match o with
  | None => None
  | Some p =>
      match get_cell s p with
      | Some c =>
          match state c with
          | KNOWN | BAND => arrival c
          | UNKNOWN => None
          end
      | None => None
      end
  end.

Definition t_min (a b : time) : time := if t_ltb b a then b else a.

Definition opt_min (a b : option time) : option time :=
  match a, b with
  | Some x, Some y => Some (t_min x y)
  | Some x, None => Some x
  | None, y => y
  end.

(** Minimum time of the resolved pixels among the two opposite neighbours of
    [p] on one axis; [None] when the axis contributes no constraint. *)
Definition axis_min (s : store) (n1 n2 : option coord) : option time :=
  opt_min (resolved_time s n1) (resolved_time s n2).

Definition combine (tx ty : option time) : option time :=
  match tx, ty with
  | Some a, Some b => Some (solve_two a b)
  | Some a, None => Some (solve_one a)
  | None, Some b => Some (solve_one b)
  | None, None => None
  end.

(** The candidate arrival time of [p]; [None] is the internal fault of a
    pixel without any resolved neighbour. *)
Definition eikonal (s : store) (p : coord) : option time :=
  combine (axis_min s (up p) (down p)) (axis_min s (left p) (right p)).

(** Modelled from the spec: the Pixel Synthesizer of section 4.4. The three
    weights are floating-point expressions of distances and time differences
    and are left to the instance, as is the epsilon of the denominator. *)
Variable directional_weight : store -> coord -> coord -> Q.
Variable geometric_weight : coord -> coord -> Q.
Variable levelset_weight : store -> coord -> coord -> Q.
Variable epsilon : Q.

Definition combined_weight (s : store) (p n : coord) : Q :=
  (directional_weight s p n * geometric_weight p n * levelset_weight s p n)%Q.

(** A pixel the synthesizer may read: KNOWN, or BAND with a finite time. *)
Definition eligible (s : store) (n : coord) : bool :=
  match get_cell s n with
  | Some c =>
      match state c, arrival c with
      | KNOWN, _ => true
      | BAND, Some _ => true
      | _, _ => false
      end
  | None => false
  end.

Definition near (r a b : nat) : bool := (a <=? b + r) && (b <=? a + r).

(** The square neighbourhood of radius [r] around [p], in row-major order,
    without [p] itself. *)
Definition window (s : store) (p : coord) (r : nat) : list coord :=
  filter (fun n => negb (coord_eqb n p))
    (flat_map (fun i => map (fun j => (i, j))
                          (filter (near r (snd p)) (seq 0 (scols s))))
              (filter (near r (fst p)) (seq 0 (srows s)))).

Definition intensity_at (s : store) (n : coord) : Q :=
  match get_cell s n with
  | Some c => intensity c
  | None => 0%Q
  end.

Definition Qsum (l : list Q) : Q := fold_right Qplus 0%Q l.

(** The weighted average over the eligible pixels of the window; [None] is
    the internal fault of a window without any eligible pixel. *)
Definition synthesize (s : store) (p : coord) (r : nat) : option Q :=
  match filter (eligible s) (window s p r) with
  | [] => None
  | ns =>
      Some (Qsum (map (fun n => combined_weight s p n * intensity_at s n) ns)
            / (Qsum (map (combined_weight s p) ns) + epsilon))%Q
  end.

(** Modelled from the spec: the Narrow Band of sections 3 and 4.3, the set of
    the BAND pixels of the store, each keyed by its current time. *)

Definition all_coords (s : store) : list coord :=
  flat_map (fun i => map (fun j => (i, j)) (seq 0 (scols s))) (seq 0 (srows s)).

Definition band_entry (s : store) (p : coord) : option (coord * time) :=
  match get_cell s p with
  | Some c =>
      match state c, arrival c with
      | BAND, Some t => Some (p, t)
      | _, _ => None
      end
  | None => None
  end.

(** The live entries in row-major coordinate order. *)
Definition band (s : store) : list (coord * time) :=
  somes (map (band_entry s) (all_coords s)).

(** The entry of smallest time; of two equal times the earlier in row-major
    order wins. *)
Fixpoint min_entry (l : list (coord * time)) : option (coord * time) :=
  match l with
  | [] => None
  | e :: t =>
      match min_entry t with
      | Some m => if t_ltb (snd m) (snd e) then Some m else Some e
      | None => Some e
      end
  end.

Definition pop_min (s : store) : option (coord * time) := min_entry (band s).

(** [push_or_update]: a pixel enters the band with the given key, or has its
    key lowered; a key is never raised. *)
Definition push_or_update (s : store) (p : coord) (t : time) : store :=
  match get_cell s p with
  | Some c =>
      match state c, arrival c with
      | BAND, Some t0 =>
          if t_ltb t t0
          then set_cell s p (mk_cell BAND (Some t) (intensity c) (synthesized c))
          else s
      | KNOWN, _ => s
      | _, _ => set_cell s p (mk_cell BAND (Some t) (intensity c) (synthesized c))
      end
  | None => s
  end.

(** Modelled from the spec: the Marching Controller of section 4.5. *)

(** Whether a pixel entering the band is given a provisional intensity. *)
Variable provisional : bool.

(** Write the synthesized intensity of [p]. *)
Definition fill (s : store) (p : coord) (r : nat) : option store :=
  match get_cell s p, synthesize s p r with
  | Some c, Some v => Some (set_cell s p (mk_cell (state c) (arrival c) v true))
  | _, _ => None
  end.

(** Step 1 for one pixel: an UNKNOWN pixel next to a KNOWN one becomes BAND
    with the time the solver gives it. *)
Definition seed_pixel (s : store) (p : coord) : option store :=
  if has_state s UNKNOWN p && existsb (has_state s KNOWN) (neighbors s p)
  then match eikonal s p with
       | Some t => Some (push_or_update s p t)
       | None => None
       end
  else Some s.

Fixpoint foldM {A B : Type} (f : A -> B -> option A) (a : A) (l : list B)
  : option A :=
  match l with
  | [] => Some a
  | b :: t =>
      match f a b with
      | Some a' => foldM f a' t
      | None => None
      end
  end.

Definition seed (s : store) : option store :=
  foldM seed_pixel s (all_coords s).

(** Step 2d for one neighbour that is still UNKNOWN. *)
Definition enter_band (r : nat) (s : store) (q : coord) : option store :=
  match eikonal s q with
  | Some t =>
      let s' := push_or_update s q t in
      if provisional then fill s' q r else Some s'
  | None => None
  end.

(** Step 2e for one neighbour that is already BAND. *)
Definition relax (s : store) (q : coord) : option store :=
  match eikonal s q with
  | Some t => Some (push_or_update s q t)
  | None => None
  end.

(** Steps 2b to 2e for the extracted pixel [p]. *)
Definition finalize (s : store) (p : coord) : store :=
  match get_cell s p with
  | Some c => set_cell s p (mk_cell KNOWN (arrival c) (intensity c) (synthesized c))
  | None => s
  end.

Definition step (r : nat) (s : store) (p : coord) : option store :=
  match get_cell s p with
  | None => None
  | Some c =>
      match (if synthesized c then Some s else fill s p r) with
      | None => None
      | Some s1 =>
          let s2 := finalize s1 p in
          let unknown_nbrs := filter (has_state s2 UNKNOWN) (neighbors s2 p) in
          let band_nbrs := filter (has_state s2 BAND) (neighbors s2 p) in
          match foldM (enter_band r) s2 unknown_nbrs with
          | None => None
          | Some s3 => foldM relax s3 band_nbrs
          end
      end
  end.

(** One extraction: the pixel, its time, and the store after the step. *)
Definition event : Type := (coord * time * store)%type.

(** The loop of step 2, at most [fuel] extractions; the history of the
    extractions in order. Running out of fuel with a non-empty band is
    reported as [None]. *)
Fixpoint march (fuel : nat) (r : nat) (s : store) : option (list event) :=
  match pop_min s with
  | None => Some []
  | Some (p, t) =>
      match fuel with
      | O => None
      | S fuel' =>
          match step r s p with
          | None => None
          | Some s' =>
              match march fuel' r s' with
              | Some h => Some ((p, t, s') :: h)
              | None => None
              end
          end
      end
  end.

Definition final_store (s : store) (h : list event) : store :=
  last (map snd h) s.

(** The whole run on the padded arrays: the seeded store and the history. *)
Definition fmm_run (img msk : ndarray) (radius : Z)
  : option (store * list event) :=
  match seed (init_store img msk) with
  | None => None
  | Some s =>
      match march (length (cells s)) (Z.to_nat radius) s with
      | Some h => Some (s, h)
      | None => None
      end
  end.

(** Modelled from the spec: the core [_inpaint_fmm], which is not among the
    sources: the intensity field of the store after the run. *)
Definition fmm_core (img msk : ndarray) (radius : Z) : option (list Q) :=
  match fmm_run img msk radius with
  | Some (s, h) => Some (map intensity (cells (final_store s h)))
  | None => None
  end.

End Core.

(** ** A rational instance of the core

    Times are rationals; the square root of the quadratic update is taken to
    six decimal places. It is the instance the examples run on. *)

Definition Qltb (a b : Q) : bool := negb (Qle_bool b a).

Definition Qabs' (q : Q) : Q := if Qle_bool 0%Q q then q else (- q)%Q.

(** Square root to six decimal places, rounded down. *)
Definition Qsqrt6 (q : Q) : Q :=
  (Z.sqrt (Qfloor (q * 1000000000000)) # 1000000)%Q.

Definition Qsolve_one (a : Q) : Q := (a + 1)%Q.

(** Section 4.2: the root of [(T-a)^2 + (T-b)^2 = 1] that is at least
    [max a b] when [|a - b| < 1], and [min a b + 1] otherwise. *)
Definition Qsolve_two (a b : Q) : Q :=
  if Qltb (Qabs' (a - b)) 1%Q
  then ((a + b + Qsqrt6 (2 - (a - b) * (a - b))) / 2)%Q
  else ((if Qltb b a then b else a) + 1)%Q.

Definition Qgeometric (p n : coord) : Q :=
  let dy := (Z.of_nat (fst p) - Z.of_nat (fst n))%Z in
  let dx := (Z.of_nat (snd p) - Z.of_nat (snd n))%Z in
  (1 / Qsqrt6 (inject_Z (dy * dy + dx * dx)))%Q.

Definition Qstore : Type := store Q.

Definition Qtime_at (s : Qstore) (n : coord) : Q :=
  match get_cell s n with
  | Some c => match arrival c with Some t => t | None => 0%Q end
  | None => 0%Q
  end.

Definition Qlevelset (s : Qstore) (p n : coord) : Q :=
  (1 / (1 + Qabs' (Qtime_at s n - Qtime_at s p)))%Q.

Definition Qdirectional (s : Qstore) (p n : coord) : Q := 1%Q.

Definition Qfmm_core : ndarray -> ndarray -> Z -> option (list Q) :=
  fmm_core 0%Q Qltb Qsolve_one Qsolve_two
           Qdirectional Qgeometric Qlevelset (1 # 1000000)%Q false.

(** ** Buffers and updates *)

Lemma length_rows_flat (A : Type) (C : nat) (g : nat -> list A) (l : list nat) :
  (forall i, length (g i) = C) ->
  length (flat_map g l) = length l * C.
Proof.
  intros Hg. induction l as [|x l IH]; simpl; [reflexivity|].
  rewrite length_app, Hg, IH. reflexivity.
Qed.

Lemma length_tabulate2 (A : Type) (R C : nat) (f : nat -> nat -> A) :
  length (tabulate2 R C f) = R * C.
Proof.
  unfold tabulate2. rewrite length_rows_flat with (C := C).
  - now rewrite length_seq.
  - intros i. now rewrite length_map, length_seq.
Qed.

Lemma nth_error_rows (A : Type) (C : nat) (f : nat -> nat -> A) :
  forall R a i j, i < R -> j < C ->
  nth_error (flat_map (fun i => map (f i) (seq 0 C)) (seq a R)) (i * C + j)
  = Some (f (a + i) j).
Proof.
  induction R as [|R IH]; intros a i j Hi Hj; [lia|].
  simpl. destruct i as [|i].
  - simpl. rewrite nth_error_app1 by (rewrite length_map, length_seq; lia).
    rewrite nth_error_map, nth_error_seq.
    destruct (Nat.ltb_spec j C); [|lia]. simpl. now rewrite Nat.add_0_r.
  - rewrite nth_error_app2 by (rewrite length_map, length_seq; simpl; lia).
    rewrite length_map, length_seq.
    replace (S i * C + j - C) with (i * C + j) by (simpl; lia).
    rewrite IH by lia. f_equal. f_equal. lia.
Qed.

Lemma nth_error_tabulate2 (A : Type) (R C : nat) (f : nat -> nat -> A) i j :
  i < R -> j < C ->
  nth_error (tabulate2 R C f) (i * C + j) = Some (f i j).
Proof.
  intros Hi Hj. unfold tabulate2. now rewrite nth_error_rows.
Qed.

Lemma nth_tabulate2 (A : Type) (R C : nat) (f : nat -> nat -> A) i j d :
  i < R -> j < C ->
  nth (i * C + j) (tabulate2 R C f) d = f i j.
Proof.
  intros Hi Hj. apply nth_error_nth. now apply nth_error_tabulate2.
Qed.

Lemma length_update (A : Type) (h : list A) l a :
  length (update h l a) = length h.
Proof.
  revert l; induction h as [|x h IH]; intros [|l]; simpl; auto.
Qed.

Lemma nth_error_update_same (A : Type) (h : list A) l a :
  l < length h -> nth_error (update h l a) l = Some a.
Proof.
  revert l; induction h as [|x h IH]; intros [|l] H; simpl in *; try lia; auto.
  apply IH; lia.
Qed.

Lemma nth_error_update_other (A : Type) (h : list A) l k a :
  k <> l -> nth_error (update h l a) k = nth_error h k.
Proof.
  revert l k; induction h as [|x h IH]; intros [|l] [|k] H; simpl; auto;
    try congruence.
Qed.

Lemma nth_update_other (A : Type) (h : list A) l k a d :
  k <> l -> nth k (update h l a) d = nth k h d.
Proof.
  intros H. rewrite <- !nth_default_eq. unfold nth_default.
  now rewrite nth_error_update_other.
Qed.

Lemma nth_update_same (A : Type) (h : list A) l a d :
  l < length h -> nth l (update h l a) d = a.
Proof.
  intros H. apply nth_error_nth. now apply nth_error_update_same.
Qed.

Lemma update_tail (A : Type) (h t : list A) k a :
  update (h ++ t) (length h + k) a = h ++ update t k a.
Proof.
  induction h as [|x h IH]; simpl; [reflexivity|]. now rewrite IH.
Qed.

Lemma nth_tail (A : Type) (h t : list A) k d :
  nth (length h + k) (h ++ t) d = nth k t d.
Proof. apply app_nth2_plus. Qed.

Lemma nth_front (A : Type) (h t : list A) k d :
  k < length h -> nth k (h ++ t) d = nth k h d.
Proof. intros H. now apply app_nth1. Qed.

(** ** What the wrapper computes *)

(** The padded array of type [dt] built around [src]: zeros of shape
    [(rows + 2, cols + 2)] with [src] assigned to the inner window. *)
Definition padded (dt : dtype) (rows cols : nat) (src : ndarray) : ndarray :=
  set_inner (zeros [rows + 2; cols + 2] dt) src.

(** What is returned for the array [a] the core leaves behind. *)
Definition finish (a : ndarray) : ndarray :=
  astype np_uint8 (np_round (get_inner (clip 0%Q 255%Q a))).

(** A [uint8] array: integers between 0 and 255. *)
Definition is_ubyte (q : Q) : Prop :=
  exists z : Z, q = inject_Z z /\ (0 <= z <= 255)%Z.

Definition ubyte_array (a : ndarray) : Prop :=
  dtype_of a = np_uint8 /\ Forall is_ubyte (data a).

(** A boolean mask: every element is 0 (false) or 1 (true). *)
Definition bool_array (a : ndarray) : Prop :=
  Forall (fun q => q = 0%Q \/ q = 1%Q) (data a).

(** The outcome is a [ValueError], raised anywhere. *)
Definition raises_ValueError (A : Type) (o : outcome A) : Prop :=
  exists site, o = Raise (ValueError site).

Lemma shape_eqb_eq (s t : list nat) : shape_eqb s t = true <-> s = t.
Proof.
  unfold shape_eqb. destruct (list_eq_dec Nat.eq_dec s t); split; intros;
    congruence.
Qed.

Lemma shape_eqb_refl (s : list nat) : shape_eqb s s = true.
Proof. now apply shape_eqb_eq. Qed.

Lemma nrows_zeros r c dt : nrows (zeros [r; c] dt) = r.
Proof. reflexivity. Qed.

Lemma ncols_zeros r c dt : ncols (zeros [r; c] dt) = c.
Proof. reflexivity. Qed.

(** ** Elements of the arrays the wrapper builds *)

Lemma get2_zeros (r c : nat) (dt : dtype) (i j : nat) :
  get2 (zeros [r; c] dt) i j = 0%Q.
Proof. unfold get2, zeros. cbn [data]. apply nth_repeat. Qed.

Lemma shape_set_inner (dst src : ndarray) : shape (set_inner dst src) = shape dst.
Proof. reflexivity. Qed.

Lemma get2_set_inner (dst src : ndarray) (i j : nat) :
  i < nrows dst -> j < ncols dst ->
  get2 (set_inner dst src) i j =
    if in_inner (nrows dst) (ncols dst) i j
    then cast_to (dtype_of dst) (get2 src (i - 1) (j - 1))
    else get2 dst i j.
Proof.
  intros Hi Hj. unfold get2 at 1.
  change (ncols (set_inner dst src)) with (ncols dst).
  unfold set_inner. cbn [data]. now rewrite nth_tabulate2.
Qed.

Lemma shape_padded dt rows cols src :
  shape (padded dt rows cols src) = [rows + 2; cols + 2].
Proof. reflexivity. Qed.

Lemma dtype_padded dt rows cols src : dtype_of (padded dt rows cols src) = dt.
Proof. reflexivity. Qed.

Lemma length_padded dt rows cols src :
  length (data (padded dt rows cols src)) = (rows + 2) * (cols + 2).
Proof. unfold padded, set_inner. cbn [data]. apply length_tabulate2. Qed.

(** The inner window of a padded array holds the source, cast. *)
Lemma padded_inside dt rows cols src i j :
  i < rows -> j < cols ->
  get2 (padded dt rows cols src) (i + 1) (j + 1) = cast_to dt (get2 src i j).
Proof.
  intros Hi Hj. unfold padded.
  rewrite get2_set_inner by (rewrite ?nrows_zeros, ?ncols_zeros; lia).
  rewrite nrows_zeros, ncols_zeros. unfold in_inner.
  replace (1 <=? i + 1) with true by (symmetry; apply Nat.leb_le; lia).
  replace (i + 1 + 1 <? rows + 2) with true by (symmetry; apply Nat.ltb_lt; lia).
  replace (1 <=? j + 1) with true by (symmetry; apply Nat.leb_le; lia).
  replace (j + 1 + 1 <? cols + 2) with true by (symmetry; apply Nat.ltb_lt; lia).
  cbn [andb]. now rewrite !Nat.add_sub.
Qed.

(** The outer ring of a padded array is zero. *)
Lemma padded_border dt rows cols src i j :
  i < rows + 2 -> j < cols + 2 ->
  i = 0 \/ i = rows + 1 \/ j = 0 \/ j = cols + 1 ->
  get2 (padded dt rows cols src) i j = 0%Q.
Proof.
  intros Hi Hj Hb. unfold padded.
  rewrite get2_set_inner by (rewrite ?nrows_zeros, ?ncols_zeros; lia).
  rewrite nrows_zeros, ncols_zeros.
  replace (in_inner (rows + 2) (cols + 2) i j) with false.
  - apply get2_zeros.
  - symmetry. unfold in_inner.
    destruct Hb as [ -> | [ -> | [ -> | -> ] ] ].
    + reflexivity.
    + replace (rows + 1 + 1 <? rows + 2) with false
        by (symmetry; apply Nat.ltb_ge; lia).
      now rewrite andb_false_r.
    + now rewrite andb_false_r.
    + replace (cols + 1 + 1 <? cols + 2) with false
        by (symmetry; apply Nat.ltb_ge; lia).
      now rewrite andb_false_r.
Qed.

(** ** Clipping, rounding and casting one element *)

Lemma clip1_range (q : Q) : (0 <= clip1 0 255 q <= 255)%Q.
Proof.
  unfold clip1.
  destruct (Qle_bool q 0) eqn:E1.
  - destruct (Qle_bool 255 0) eqn:E2; [discriminate|]. split; lra.
  - assert (~ (q <= 0)%Q) as Hq.
    { intro Hc. apply Qle_bool_iff in Hc. congruence. }
    destruct (Qle_bool 255 q) eqn:E2.
    + split; lra.
    + assert (~ (255 <= q)%Q) as Hq2.
      { intro Hc. apply Qle_bool_iff in Hc. congruence. }
      split; lra.
Qed.

Lemma round_half_even_range (q : Q) :
  (0 <= q <= 255)%Q -> (0 <= round_half_even q <= 255)%Z.
Proof.
  intros [H0 H255]. unfold round_half_even.
  pose proof (Qfloor_le q) as Hf. pose proof (Qlt_floor q) as Hl.
  set (f := Qfloor q) in *.
  assert (0 <= f)%Z as Hf0.
  { apply Z.lt_succ_r. rewrite Zlt_Qlt. unfold Z.succ.
    change (inject_Z 0) with 0%Q. lra. }
  assert (f <= 255)%Z as Hf255.
  { rewrite Zle_Qle. change (inject_Z 255) with 255%Q. lra. }
  assert ((1 # 2 <= q - inject_Z f)%Q -> (f + 1 <= 255)%Z) as Hup.
  { intros Hh. apply Z.le_succ_l. rewrite Zlt_Qlt.
    change (inject_Z 255) with 255%Q. lra. }
  destruct (Qcompare (q - inject_Z f) (1 # 2)) eqn:E.
  - apply Qeq_alt in E. destruct (Z.even f); [lia|].
    assert (f + 1 <= 255)%Z by (apply Hup; lra). lia.
  - lia.
  - apply Qgt_alt in E.
    assert (f + 1 <= 255)%Z by (apply Hup; lra). lia.
Qed.

Lemma Qtrunc_inject_Z (z : Z) : Qtrunc (inject_Z z) = z.
Proof.
  unfold Qtrunc. destruct (Qle_bool 0 (inject_Z z)).
  - apply Qfloor_Z.
  - apply Qceiling_Z.
Qed.

Lemma cast_ubyte (z : Z) :
  (0 <= z <= 255)%Z -> cast_to np_uint8 (inject_Z z) = inject_Z z.
Proof.
  intros Hz. unfold cast_to. rewrite Qtrunc_inject_Z.
  now rewrite Z.mod_small by lia.
Qed.

Lemma round_half_even_inject_Z (z : Z) : round_half_even (inject_Z z) = z.
Proof.
  unfold round_half_even. rewrite Qfloor_Z.
  replace (Qcompare (inject_Z z - inject_Z z) (1 # 2)) with Lt; [reflexivity|].
  symmetry. apply (proj1 (Qlt_alt _ _)). generalize (inject_Z z). intros x. lra.
Qed.

Lemma clip1_ubyte (z : Z) :
  (0 <= z <= 255)%Z -> clip1 0 255 (inject_Z z) = inject_Z z.
Proof.
  intros Hz. unfold clip1.
  destruct (Qle_bool (inject_Z z) 0) eqn:E1.
  - apply Qle_bool_iff in E1. change 0%Q with (inject_Z 0) in E1.
    rewrite <- Zle_Qle in E1. assert (z = 0)%Z as -> by lia. reflexivity.
  - destruct (Qle_bool 255 (inject_Z z)) eqn:E2; [|reflexivity].
    apply Qle_bool_iff in E2. change 255%Q with (inject_Z 255) in E2.
    rewrite <- Zle_Qle in E2. assert (z = 255)%Z as -> by lia. reflexivity.
Qed.

(** What one element of the returned array is, given the element the core
    left in the padded array. *)
Definition finish1 (q : Q) : Q :=
  cast_to np_uint8 (inject_Z (round_half_even (clip1 0 255 q))).

Lemma finish1_ubyte (q : Q) : is_ubyte (finish1 q).
Proof.
  unfold finish1.
  pose proof (round_half_even_range (clip1_range q)) as Hz.
  exists (round_half_even (clip1 0 255 q)). split; [|exact Hz].
  now apply cast_ubyte.
Qed.

Lemma finish1_fixes_ubyte (q : Q) : is_ubyte q -> finish1 q = q.
Proof.
  intros (z & -> & Hz). unfold finish1.
  rewrite clip1_ubyte, round_half_even_inject_Z by exact Hz.
  now apply cast_ubyte.
Qed.

Lemma get2_clip (a : ndarray) (i j : nat) :
  get2 (clip 0 255 a) i j = clip1 0 255 (get2 a i j).
Proof.
  unfold get2, clip. cbn [data].
  change (ncols {| shape := shape a; dtype_of := dtype_of a;
                   data := map (clip1 0 255) (data a) |}) with (ncols a).
  exact (map_nth (clip1 0 255) (data a) 0%Q (i * ncols a + j)).
Qed.

Lemma shape_finish (a : ndarray) :
  shape (finish a) = [nrows a - 2; ncols a - 2].
Proof. reflexivity. Qed.

Lemma dtype_finish (a : ndarray) : dtype_of (finish a) = np_uint8.
Proof. reflexivity. Qed.

Lemma data_finish (a : ndarray) :
  data (finish a) =
    tabulate2 (nrows a - 2) (ncols a - 2)
      (fun i j => finish1 (get2 a (i + 1) (j + 1))).
Proof.
  unfold finish, astype, np_round, get_inner. cbn [data].
  change (nrows (clip 0 255 a)) with (nrows a).
  change (ncols (clip 0 255 a)) with (ncols a).
  unfold tabulate2. rewrite !flat_map_concat_map, !concat_map, !map_map.
  f_equal. apply map_ext. intros i. rewrite !map_map. apply map_ext.
  intros j. unfold finish1. now rewrite get2_clip.
Qed.

Lemma Forall_tabulate2 (A : Type) (P : A -> Prop) R C (f : nat -> nat -> A) :
  (forall i j, i < R -> j < C -> P (f i j)) ->
  Forall P (tabulate2 R C f).
Proof.
  intros H. unfold tabulate2. apply Forall_flat_map.
  apply Forall_forall. intros i Hi. apply in_seq in Hi.
  apply Forall_map. apply Forall_forall. intros j Hj. apply in_seq in Hj.
  apply H; lia.
Qed.

Lemma finish_ubyte (a : ndarray) : ubyte_array (finish a).
Proof.
  split; [reflexivity|]. rewrite data_finish.
  apply Forall_tabulate2. intros. apply finish1_ubyte.
Qed.

Lemma get2_finish (a : ndarray) (i j : nat) :
  i < nrows a - 2 -> j < ncols a - 2 ->
  get2 (finish a) i j = finish1 (get2 a (i + 1) (j + 1)).
Proof.
  intros Hi Hj. unfold get2 at 1. rewrite data_finish.
  change (ncols (finish a)) with (ncols a - 2). now rewrite nth_tabulate2.
Qed.

(** ** Clipping and rounding of one element *)

Lemma finish1_value (q : Q) :
  finish1 q = inject_Z (round_half_even (clip1 0 255 q)).
Proof.
  unfold finish1. apply cast_ubyte. apply round_half_even_range, clip1_range.
Qed.

Lemma clip1_high (q : Q) : (255 <= q)%Q -> clip1 0 255 q = 255%Q.
Proof.
  intros H. unfold clip1.
  destruct (Qle_bool q 0) eqn:E0.
  - apply Qle_bool_iff in E0. lra.
  - apply Qle_bool_iff in H. now rewrite H.
Qed.

Lemma clip1_low (q : Q) : (q <= 0)%Q -> clip1 0 255 q = 0%Q.
Proof.
  intros H. unfold clip1. apply Qle_bool_iff in H. rewrite H. reflexivity.
Qed.

Lemma clip1_inside (q : Q) : (0 <= q <= 255)%Q -> (clip1 0 255 q == q)%Q.
Proof.
  intros [H0 H1]. unfold clip1.
  destruct (Qle_bool q 0) eqn:E0.
  - apply Qle_bool_iff in E0. simpl. lra.
  - destruct (Qle_bool 255 q) eqn:E1; [|reflexivity].
    apply Qle_bool_iff in E1. lra.
Qed.

Lemma clip1_mono (p q : Q) : (p <= q)%Q -> (clip1 0 255 p <= clip1 0 255 q)%Q.
Proof.
  intros H. unfold clip1.
  destruct (Qle_bool p 0) eqn:Ep, (Qle_bool q 0) eqn:Eq;
    try apply Qle_bool_iff in Ep; try apply Qle_bool_iff in Eq;
    try (apply not_true_iff_false in Ep; rewrite Qle_bool_iff in Ep);
    try (apply not_true_iff_false in Eq; rewrite Qle_bool_iff in Eq);
    simpl.
  - lra.
  - destruct (Qle_bool 255 q) eqn:E; [lra|]. lra.
  - lra.
  - destruct (Qle_bool 255 p) eqn:E1, (Qle_bool 255 q) eqn:E2;
      try apply Qle_bool_iff in E1; try apply Qle_bool_iff in E2;
      try (apply not_true_iff_false in E1; rewrite Qle_bool_iff in E1);
      try (apply not_true_iff_false in E2; rewrite Qle_bool_iff in E2);
      lra.
Qed.

Lemma floor_bounds (q : Q) :
  (inject_Z (Qfloor q) <= q /\ q < inject_Z (Qfloor q) + 1)%Q.
Proof.
  split; [apply Qfloor_le|].
  pose proof (Qlt_floor q) as H. rewrite inject_Z_plus in H. exact H.
Qed.

Lemma round_half_even_cases (q : Q) :
  let f := Qfloor q in
  (round_half_even q = f /\ (q - inject_Z f <= 1 # 2)%Q) \/
  (round_half_even q = (f + 1)%Z /\ (1 # 2 <= q - inject_Z f)%Q).
Proof.
  intros f. unfold round_half_even. fold f.
  destruct (Qcompare_spec (q - inject_Z f) (1 # 2)) as [E|E|E].
  - destruct (Z.even f); [left|right]; split; try reflexivity; lra.
  - left. split; [reflexivity|lra].
  - right. split; [reflexivity|lra].
Qed.

Lemma round_half_even_near (q : Q) :
  (Qabs (inject_Z (round_half_even q) - q) <= 1 # 2)%Q.
Proof.
  destruct (floor_bounds q) as [Hl Hu].
  apply Qabs_Qle_condition.
  destruct (round_half_even_cases q) as [[-> H]|[-> H]];
    rewrite ?inject_Z_plus; change (inject_Z 1) with 1%Q; lra.
Qed.

Lemma round_half_even_mono (p q : Q) :
  (p <= q)%Q -> (round_half_even p <= round_half_even q)%Z.
Proof.
  intros H. pose proof (Qfloor_resp_le _ _ H) as Hf.
  destruct (Z.eq_dec (Qfloor p) (Qfloor q)) as [E|E].
  - unfold round_half_even. rewrite E.
    destruct (Qcompare_spec (p - inject_Z (Qfloor q)) (1 # 2)) as [Ep|Ep|Ep],
             (Qcompare_spec (q - inject_Z (Qfloor q)) (1 # 2)) as [Eq|Eq|Eq];
      try lra; try lia; destruct (Z.even (Qfloor q)); lia.
  - destruct (round_half_even_cases p) as [[-> _]|[-> _]],
             (round_half_even_cases q) as [[-> _]|[-> _]]; lia.
Qed.

Lemma round_half_even_comp (p q : Q) :
  (p == q)%Q -> round_half_even p = round_half_even q.
Proof.
  intros H. apply Z.le_antisymm; apply round_half_even_mono; lra.
Qed.

Lemma round_half_even_tie (z : Z) :
  round_half_even (inject_Z z + (1 # 2)) = if Z.even z then z else (z + 1)%Z.
Proof.
  assert (Qfloor (inject_Z z + (1 # 2)) = z) as Hf.
  { destruct (floor_bounds (inject_Z z + (1 # 2))) as [Hl Hu].
    assert (inject_Z (Qfloor (inject_Z z + (1 # 2)))
              < inject_Z z + inject_Z 1)%Q
      as H1 by (change (inject_Z 1) with 1%Q; lra).
    assert (inject_Z z
              < inject_Z (Qfloor (inject_Z z + (1 # 2))) + inject_Z 1)%Q
      as H2 by (change (inject_Z 1) with 1%Q; lra).
    rewrite <- inject_Z_plus in H1, H2.
    rewrite <- Zlt_Qlt in H1, H2. lia. }
  unfold round_half_even. rewrite Hf.
  destruct (Qcompare_spec (inject_Z z + (1 # 2) - inject_Z z) (1 # 2))
    as [E|E|E]; [reflexivity|lra|lra].
Qed.

Lemma app_cons_neq (A : Type) (l r : list A) (x : A) : l ++ x :: r <> l.
Proof.
  intros H. apply (f_equal (@length A)) in H.
  rewrite length_app in H. simpl in H. lia.
Qed.

(** ** Example inputs

    The conversion of the examples is [img_as_ubyte] restricted to two kinds
    of image. An array that already has type [uint8] is handed back as the
    same object. A float array that is not empty and whose elements are
    multiples of 1/256 between -1 and 1 is multiplied by 255 (the products
    are exact), rounded and clipped to 0..255. Every other array is outside
    the restriction, which raises there: as the library does on an empty
    float array and on a float image with a value outside [-1, 1]; the
    further arrays the library converts (integers, booleans, floats with
    an inexact product) are left out, and the examples convert none of
    them. *)
Definition is_uint8 (a : ndarray) : bool :=
  match dtype_of a with
  | np_uint8 => true
  | _ => false
  end.

(** A multiple of 1/256 between -1 and 1. *)
Definition scalable (q : Q) : bool :=
  Qle_bool (-1) q && Qle_bool q 1 && (256 mod Z.pos (Qden q) =? 0)%Z.

(** What the restricted conversion returns; [None] where it raises. *)
Definition convert_example (a : ndarray) : option ndarray :=
  match dtype_of a, data a with
  | np_uint8, _ => Some a
  | np_double, _ :: _ =>
      if forallb scalable (data a)
      then Some (mk_ndarray (shape a) np_uint8
                   (map (fun q => finish1 (255 * q)%Q) (data a)))
      else None
  | _, _ => None
  end.

Definition scale_raises (a : ndarray) : bool :=
  match convert_example a with
  | Some _ => false
  | None => true
  end.

Definition scale_to_ubyte (a : ndarray) : ndarray :=
  match convert_example a with
  | Some c => c
  | None => empty_array
  end.

(** The failures of the modelled core are internal consistency faults, not
    invalid-input errors. *)
Definition never_rejects (inpainted inpainted_mask : ndarray) (radius : Z)
  : bool := false.

Definition ex_image : ndarray :=
  mk_ndarray [2; 2] np_uint8 (map inject_Z [10; 20; 30; 40]%Z).

Definition ex_mask : ndarray :=
  mk_ndarray [2; 2] np_bool [0; 1; 0; 0]%Q.

Definition ex_world : world := mk_world [ex_image; ex_mask] [].

(** A float image with a mask that is false everywhere. *)
Definition ex_float_image : ndarray :=
  mk_ndarray [1; 2] np_double [1 # 2; 1]%Q.

Definition ex_clear_mask : ndarray :=
  mk_ndarray [1; 2] np_bool [0; 0]%Q.

Definition ex_float_world : world :=
  mk_world [ex_float_image; ex_clear_mask] [].

(** A three-dimensional float image with a mask of its shape. *)
Definition ex_cube : ndarray :=
  mk_ndarray [1; 1; 2] np_double [1 # 2; 1]%Q.

Definition ex_cube_mask : ndarray :=
  mk_ndarray [1; 1; 2] np_bool [1; 0]%Q.

Definition ex_cube_world : world := mk_world [ex_cube; ex_cube_mask] [].




(** An example core that rescales the buffer it is handed: every element
    [q] becomes [a * q + b]. *)
Definition ex_affine_core (a b : Q) (inpainted inpainted_mask : ndarray)
  (radius : Z) : option (list Q) :=
  Some (map (fun q => a * q + b)%Q (data inpainted)).

(** A float mask with an element between 0 and 1, over a two-pixel image. *)
Definition ex_row : ndarray := mk_ndarray [1; 2] np_uint8 [7; 9]%Q.

Definition ex_half_mask : ndarray :=
  mk_ndarray [1; 2] np_double [1 # 2; 1]%Q.

Definition ex_half_world : world := mk_world [ex_row; ex_half_mask] [].

(** An image with three columns and no rows. *)
Definition ex_empty : ndarray := mk_ndarray [0; 3] np_uint8 [].

Definition ex_empty_mask : ndarray := mk_ndarray [0; 3] np_bool [].

Definition ex_empty_world : world := mk_world [ex_empty; ex_empty_mask] [].

Lemma scale_to_ubyte_shape (a : ndarray) :
  scale_raises a = false -> shape (scale_to_ubyte a) = shape a.
Proof.
  unfold scale_raises, scale_to_ubyte, convert_example.
  destruct (dtype_of a), (data a) as [|q d]; try discriminate;
    try reflexivity.
  now destruct (forallb scalable (q :: d)).
Qed.

Lemma scale_to_ubyte_same (a : ndarray) :
  scale_raises a = false -> is_uint8 a = true -> scale_to_ubyte a = a.
Proof.
  intros _. unfold is_uint8, scale_to_ubyte, convert_example.
  destruct (dtype_of a); try discriminate. reflexivity.
Qed.

Lemma nth_tail0 (A : Type) (h t : list A) d :
  nth (length h) (h ++ t) d = nth 0 t d.
Proof. rewrite <- (Nat.add_0_r (length h)) at 1. apply nth_tail. Qed.

Lemma update_tail0 (A : Type) (h t : list A) a :
  update (h ++ t) (length h) a = h ++ update t 0 a.
Proof. rewrite <- (Nat.add_0_r (length h)) at 1. apply update_tail. Qed.

Lemma length_snoc (A : Type) (h : list A) a : length (h ++ [a]) = length h + 1.
Proof. now rewrite length_app. Qed.

Lemma snoc_snoc (A : Type) (h t : list A) a : (h ++ t) ++ [a] = h ++ (t ++ [a]).
Proof. now rewrite app_assoc. Qed.

Ltac heap_norm :=
  repeat first
    [ rewrite <- app_assoc
    | rewrite <- Nat.add_assoc
    | rewrite length_snoc
    | rewrite nth_tail
    | rewrite nth_tail0
    | rewrite update_tail
    | rewrite update_tail0
    | progress cbn [app nth update heap calls length Nat.add] ].

Section WrapperRun.

Variable img_as_ubyte : ndarray -> ndarray.
Variable ubyte_raises : ndarray -> bool.
Variable ubyte_same_object : ndarray -> bool.
Variable fmm_core : ndarray -> ndarray -> Z -> option (list Q).
Variable fmm_core_rejects : ndarray -> ndarray -> Z -> bool.

Let run :=
  inpaint_fmm img_as_ubyte ubyte_raises ubyte_same_object fmm_core
    fmm_core_rejects.

(** When the conversion returns, it keeps the shape, and an object handed
    back as it is has not been changed. *)
Hypothesis ubyte_shape : forall a,
  ubyte_raises a = false -> shape (img_as_ubyte a) = shape a.
Hypothesis ubyte_same : forall a,
  ubyte_raises a = false -> ubyte_same_object a = true -> img_as_ubyte a = a.

(** The calls before the core is entered. *)
Definition calls_to_core (img pi pm : ndarray) (rows cols : nat) (radius : Z)
  : list call :=
  [Call_img_as_ubyte img;
   Call_zeros [rows + 2; cols + 2] np_double;
   Call_zeros [rows + 2; cols + 2] np_uint8;
   Call_inpaint_fmm pi pm radius].

Lemma run_2d (w : world) (image mask : loc) (radius : Z) (rows cols : nat) :
  let h := heap w in
  let img := nth image h empty_array in
  let msk := nth mask h empty_array in
  let pi := padded np_double rows cols (img_as_ubyte img) in
  let pm := padded np_uint8 rows cols msk in
  image < length h -> mask < length h ->
  shape img = [rows; cols] -> shape msk = [rows; cols] ->
  (1 <= radius)%Z ->
  ubyte_raises img = false ->
  exists h1,
    (h1 = h \/ h1 = h ++ [img_as_ubyte img]) /\
    run image mask radius w =
      match fmm_core pi pm radius with
      | Some buf =>
          let out := clip 0%Q 255%Q (mk_ndarray (shape pi) (dtype_of pi) buf) in
          (Return (length h1 + 3),
           mk_world (h1 ++ [out; pm; np_round (get_inner out);
                            astype np_uint8 (np_round (get_inner out))])
                    (calls w ++ calls_to_core img pi pm rows cols radius
                             ++ [Call_clip; Call_round; Call_astype]))
      | None =>
          (Raise (core_failure fmm_core_rejects pi pm radius),
           mk_world (h1 ++ [pi; pm])
                    (calls w ++ calls_to_core img pi pm rows cols radius))
      end.
Proof.
  intros h img msk pi pm Hi Hm Hsi Hsm Hr Hconv.
  unfold run, inpaint_fmm, call_img_as_ubyte, np_zeros, assign_inner,
    call_core, np_clip, bind, read, write, alloc, log, ret, raise.
  cbn [heap calls].
  fold h. fold img. fold msk.
  rewrite Hsi, Hsm, shape_eqb_refl. cbn [negb].
  destruct (Z.ltb_spec radius 1) as [Hlt|_]; [lia|].
  destruct (ubyte_same_object img) eqn:Hsame.
  - exists h. split; [now left|].
    cbn [heap calls]. fold h. fold img. rewrite Hconv, Hsame.
    cbn [heap calls]. fold img. rewrite Hsi.
    heap_norm.
    rewrite ?(nth_front _ _ _ Hi), ?(nth_front _ _ _ Hm). fold img. fold msk.
    rewrite nrows_zeros, ncols_zeros, !Nat.add_sub, Hsi, shape_eqb_refl.
    heap_norm.
    rewrite ?(nth_front _ _ _ Hi), ?(nth_front _ _ _ Hm). fold img. fold msk.
    rewrite nrows_zeros, ncols_zeros, !Nat.add_sub, Hsm, shape_eqb_refl.
    heap_norm.
    unfold calls_to_core, pi, pm, padded. rewrite (ubyte_same Hconv Hsame).
    destruct (fmm_core _ _ radius) as [buf|]; heap_norm;
      rewrite ?length_app, <- ?app_assoc; cbn [app length];
      rewrite <- ?Nat.add_assoc; reflexivity.
  - exists (h ++ [img_as_ubyte img]). split; [now right|].
    cbn [heap calls]. fold h. fold img. rewrite Hconv, Hsame.
    cbn [heap calls]. fold img. heap_norm. rewrite (ubyte_shape Hconv), Hsi.
    heap_norm.
    rewrite ?(nth_front _ _ _ Hi), ?(nth_front _ _ _ Hm). fold img. fold msk.
    rewrite nrows_zeros, ncols_zeros, !Nat.add_sub, (ubyte_shape Hconv), Hsi,
      shape_eqb_refl.
    heap_norm.
    rewrite ?(nth_front _ _ _ Hi), ?(nth_front _ _ _ Hm). fold img. fold msk.
    rewrite nrows_zeros, ncols_zeros, !Nat.add_sub, Hsm, shape_eqb_refl.
    heap_norm.
    unfold calls_to_core, pi, pm, padded.
    destruct (fmm_core _ _ radius) as [buf|]; heap_norm;
      rewrite ?length_app, <- ?app_assoc; cbn [app length];
      rewrite <- ?Nat.add_assoc; reflexivity.
Qed.

Lemma run_dims_mismatch (w : world) (image mask : loc) (radius : Z) :
  shape (nth image (heap w) empty_array) <> shape (nth mask (heap w) empty_array) ->
  run image mask radius w = (Raise (ValueError DimsMismatch), w).
Proof.
  intros Hne. unfold run, inpaint_fmm, bind, read, raise. cbn [heap].
  destruct (shape_eqb _ _) eqn:E; [|reflexivity].
  apply shape_eqb_eq in E. contradiction.
Qed.

Lemma run_bad_radius (w : world) (image mask : loc) (radius : Z) :
  shape (nth image (heap w) empty_array) = shape (nth mask (heap w) empty_array) ->
  (radius < 1)%Z ->
  run image mask radius w = (Raise (ValueError BadRadius), w).
Proof.
  intros He Hr. unfold run, inpaint_fmm, bind, read, raise. cbn [heap].
  rewrite He, shape_eqb_refl. cbn [negb].
  destruct (Z.ltb_spec radius 1); [reflexivity|lia].
Qed.

Lemma run_conversion_raises (w : world) (image mask : loc) (radius : Z) :
  let img := nth image (heap w) empty_array in
  shape img = shape (nth mask (heap w) empty_array) ->
  (1 <= radius)%Z ->
  ubyte_raises img = true ->
  run image mask radius w =
    (Raise (ValueError Conversion),
     mk_world (heap w) (calls w ++ [Call_img_as_ubyte img])).
Proof.
  intros img He Hr Hconv.
  unfold run, inpaint_fmm, call_img_as_ubyte, bind, read, alloc, log, ret,
    raise.
  cbn [heap calls]. fold img. rewrite He, shape_eqb_refl. cbn [negb].
  destruct (Z.ltb_spec radius 1) as [Hlt|_]; [lia|].
  cbn [heap calls]. fold img. now rewrite Hconv.
Qed.

Lemma run_not_2d (w : world) (image mask : loc) (radius : Z) :
  let h := heap w in
  let img := nth image h empty_array in
  image < length h ->
  shape img = shape (nth mask h empty_array) ->
  (1 <= radius)%Z ->
  ubyte_raises img = false ->
  ndim img <> 2 ->
  exists h1,
    (h1 = h \/ h1 = h ++ [img_as_ubyte img]) /\
    run image mask radius w =
      (Raise (ValueError Unpack),
       mk_world h1 (calls w ++ [Call_img_as_ubyte img])).
Proof.
  intros h img Hi He Hr Hconv Hnd.
  unfold run, inpaint_fmm, call_img_as_ubyte, bind, read, alloc, log, ret,
    raise.
  cbn [heap calls]. fold h. fold img. rewrite He, shape_eqb_refl. cbn [negb].
  destruct (Z.ltb_spec radius 1) as [Hlt|_]; [lia|].
  unfold ndim in Hnd.
  destruct (ubyte_same_object img) eqn:Hsame.
  - exists h. split; [now left|]. cbn [heap calls]. fold h. fold img.
    rewrite Hconv, Hsame. cbn [heap calls]. fold img. clear He.
    destruct (shape img) as [|a [|b [|c s]]]; simpl in Hnd;
      try congruence; reflexivity.
  - exists (h ++ [img_as_ubyte img]). split; [now right|].
    cbn [heap calls]. fold h. fold img. rewrite Hconv, Hsame.
    cbn [heap calls].
    rewrite nth_tail0. cbn [nth]. rewrite (ubyte_shape Hconv). clear He.
    destruct (shape img) as [|a [|b [|c s]]]; simpl in Hnd;
      try congruence; reflexivity.
Qed.

(** The outcome and the final world in every case. *)
Lemma run_cases (w : world) (image mask : loc) (radius : Z) :
  let h := heap w in
  let img := nth image h empty_array in
  let msk := nth mask h empty_array in
  image < length h -> mask < length h ->
  (shape img <> shape msk /\
   run image mask radius w = (Raise (ValueError DimsMismatch), w))
  \/ (shape img = shape msk /\ (radius < 1)%Z /\
      run image mask radius w = (Raise (ValueError BadRadius), w))
  \/ (shape img = shape msk /\ (1 <= radius)%Z /\ ubyte_raises img = true /\
      run image mask radius w =
        (Raise (ValueError Conversion),
         mk_world h (calls w ++ [Call_img_as_ubyte img])))
  \/ (shape img = shape msk /\ (1 <= radius)%Z /\ ubyte_raises img = false /\
      ndim img <> 2 /\
      exists h1, (h1 = h \/ h1 = h ++ [img_as_ubyte img]) /\
        run image mask radius w =
          (Raise (ValueError Unpack),
           mk_world h1 (calls w ++ [Call_img_as_ubyte img])))
  \/ (exists rows cols,
        shape img = [rows; cols] /\ shape msk = [rows; cols] /\
        (1 <= radius)%Z /\ ubyte_raises img = false /\
        let pi := padded np_double rows cols (img_as_ubyte img) in
        let pm := padded np_uint8 rows cols msk in
        exists h1, (h1 = h \/ h1 = h ++ [img_as_ubyte img]) /\
          run image mask radius w =
            match fmm_core pi pm radius with
            | Some buf =>
                let a := mk_ndarray (shape pi) (dtype_of pi) buf in
                (Return (length h1 + 3),
                 mk_world (h1 ++ [clip 0%Q 255%Q a; pm;
                                  np_round (get_inner (clip 0%Q 255%Q a));
                                  finish a])
                          (calls w ++ calls_to_core img pi pm rows cols radius
                                   ++ [Call_clip; Call_round; Call_astype]))
            | None =>
                (Raise (core_failure fmm_core_rejects pi pm radius),
                 mk_world (h1 ++ [pi; pm])
                          (calls w ++ calls_to_core img pi pm rows cols radius))
            end).
Proof.
  intros h img msk Hi Hm.
  destruct (list_eq_dec Nat.eq_dec (shape img) (shape msk)) as [He|Hne].
  2:{ left. split; [exact Hne|]. now apply run_dims_mismatch. }
  right. destruct (Z.lt_ge_cases radius 1) as [Hr|Hr].
  { left. split; [exact He|]. split; [exact Hr|]. now apply run_bad_radius. }
  right. destruct (ubyte_raises img) eqn:Hconv.
  { left. split; [exact He|]. split; [exact Hr|]. split; [reflexivity|].
    now apply run_conversion_raises. }
  right. destruct (Nat.eq_dec (ndim img) 2) as [Hd|Hd].
  2:{ left. split; [exact He|]. split; [exact Hr|]. split; [reflexivity|].
      split; [exact Hd|]. now apply run_not_2d. }
  right. unfold ndim in Hd.
  destruct (shape img) as [|rows [|cols [|c s]]] eqn:Hs; simpl in Hd;
    try discriminate.
  exists rows, cols. split; [reflexivity|]. split; [now symmetry|].
  split; [exact Hr|]. split; [reflexivity|]. cbv zeta.
  destruct (@run_2d w image mask radius rows cols Hi Hm Hs (eq_sym He) Hr Hconv)
    as (h1 & Hh1 & Hrun).
  exists h1. split; [exact Hh1|]. exact Hrun.
Qed.

Section TwoDimensional.

Variables (w : world) (image mask : loc) (radius : Z) (rows cols : nat).

Let img := nth image (heap w) empty_array.
Let msk := nth mask (heap w) empty_array.
Let pi := padded np_double rows cols (img_as_ubyte img).
Let pm := padded np_uint8 rows cols msk.

Hypothesis image_valid : image < length (heap w).
Hypothesis mask_valid : mask < length (heap w).
Hypothesis image_shape : shape img = [rows; cols].
Hypothesis mask_shape : shape msk = [rows; cols].
Hypothesis radius_positive : (1 <= radius)%Z.
Hypothesis conversion_returns : ubyte_raises img = false.

Lemma run_2d_calls :
  calls (snd (run image mask radius w)) =
    calls w ++ calls_to_core img pi pm rows cols radius ++
    match fmm_core pi pm radius with
    | Some _ => [Call_clip; Call_round; Call_astype]
    | None => []
    end.
Proof.
  destruct (@run_2d w image mask radius rows cols image_valid mask_valid
              image_shape mask_shape radius_positive conversion_returns)
    as (h1 & _ & Hrun).
  rewrite Hrun. fold img. fold pi. fold msk. fold pm.
  destruct (fmm_core pi pm radius); cbn [snd calls]; [reflexivity|].
  now rewrite app_nil_r.
Qed.

Lemma run_2d_outcome :
  match fmm_core pi pm radius with
  | Some buf =>
      exists l, fst (run image mask radius w) = Return l /\
        nth l (heap (snd (run image mask radius w))) empty_array =
          finish (mk_ndarray [rows + 2; cols + 2] np_double buf)
  | None =>
      fst (run image mask radius w) =
        Raise (core_failure fmm_core_rejects pi pm radius)
  end.
Proof.
  destruct (@run_2d w image mask radius rows cols image_valid mask_valid
              image_shape mask_shape radius_positive conversion_returns)
    as (h1 & _ & Hrun).
  rewrite Hrun. fold img. fold pi. fold msk. fold pm.
  destruct (fmm_core pi pm radius) as [buf|]; cbn [fst snd heap];
    [|reflexivity].
  exists (length h1 + 3). split; [reflexivity|].
  rewrite nth_tail. reflexivity.
Qed.

End TwoDimensional.

(** A call that returns has got its image converted. *)
Lemma returned_converted (w : world) (image mask : loc) (radius : Z) (l : loc) :
  image < length (heap w) -> mask < length (heap w) ->
  fst (run image mask radius w) = Return l ->
  ubyte_raises (nth image (heap w) empty_array) = false.
Proof.
  intros Hi Hm Hl.
  destruct (@run_cases w image mask radius Hi Hm)
    as [(_ & Hrun)|[(_ & _ & Hrun)|[(_ & _ & _ & Hrun)
       |[(_ & _ & _ & _ & h1 & _ & Hrun)
        |(rows & cols & _ & _ & _ & Hconv & _)]]]];
    try (rewrite Hrun in Hl; discriminate Hl).
  exact Hconv.
Qed.

(** C2 (as amended): [inpaint_fmm] raises a [ValueError] exactly when the
    shapes of image and mask differ, or the radius is below 1, or
    [img_as_ubyte] raises one on the image, or the common shape is not
    two-dimensional (the unpacking of [image.shape] fails), or the core
    raises one. The first explicit check raises exactly on a shape mismatch,
    the second exactly on matching shapes with a radius below 1; the
    conversion is reached, and its error passed on, exactly when both checks
    pass, and the unpacking fails exactly when the converted image is not
    two-dimensional. *)
Theorem inpaint_fmm_value_error_iff (w : world) (image mask : loc) (radius : Z) :
  let img := nth image (heap w) empty_array in
  let msk := nth mask (heap w) empty_array in
  let o := fst (inpaint_fmm img_as_ubyte ubyte_raises ubyte_same_object
                  fmm_core fmm_core_rejects image mask radius w) in
  image < length (heap w) -> mask < length (heap w) ->
  (raises_ValueError o <->
     shape img <> shape msk \/ (radius < 1)%Z \/ ubyte_raises img = true \/
     ndim img <> 2 \/
     exists rows cols, shape img = [rows; cols] /\
       fmm_core (padded np_double rows cols (img_as_ubyte img))
                (padded np_uint8 rows cols msk) radius = None /\
       fmm_core_rejects (padded np_double rows cols (img_as_ubyte img))
                (padded np_uint8 rows cols msk) radius = true)
  /\ (o = Raise (ValueError DimsMismatch) <-> shape img <> shape msk)
  /\ (o = Raise (ValueError BadRadius) <->
        shape img = shape msk /\ (radius < 1)%Z)
  /\ (o = Raise (ValueError Conversion) <->
        shape img = shape msk /\ (1 <= radius)%Z /\ ubyte_raises img = true)
  /\ (o = Raise (ValueError Unpack) <->
        shape img = shape msk /\ (1 <= radius)%Z /\
        ubyte_raises img = false /\ ndim img <> 2).
Proof.
  intros img msk o Hi Hm. subst o.
  destruct (@run_cases w image mask radius Hi Hm)
    as [(Hne & Hrun)|[(He & Hr & Hrun)|[(He & Hr & Hc & Hrun)
       |[(He & Hr & Hc & Hd & h1 & _ & Hrun)
        |(rows & cols & Hsi & Hsm & Hr & Hc & h1 & _ & Hrun)]]]];
    unfold run in Hrun; rewrite Hrun; clear Hrun.
  - cbn [fst]. split; [|split; [|split; [|split]]]; split; intros H.
    + now left.
    + now exists DimsMismatch.
    + exact Hne.
    + reflexivity.
    + discriminate.
    + destruct H; contradiction.
    + discriminate.
    + destruct H; contradiction.
    + discriminate.
    + destruct H; contradiction.
  - cbn [fst]. split; [|split; [|split; [|split]]]; split; intros H.
    + right. now left.
    + now exists BadRadius.
    + discriminate.
    + contradiction.
    + now split.
    + reflexivity.
    + discriminate.
    + destruct H as (_ & H & _). lia.
    + discriminate.
    + destruct H as (_ & H & _). lia.
  - cbn [fst]. split; [|split; [|split; [|split]]]; split; intros H.
    + right. right. now left.
    + now exists Conversion.
    + discriminate.
    + contradiction.
    + discriminate.
    + destruct H. lia.
    + now repeat split.
    + reflexivity.
    + discriminate.
    + destruct H as (_ & _ & H & _). (unfold img, msk in *; congruence).
  - cbn [fst]. split; [|split; [|split; [|split]]]; split; intros H.
    + right. right. right. now left.
    + now exists Unpack.
    + discriminate.
    + contradiction.
    + discriminate.
    + destruct H. lia.
    + discriminate.
    + destruct H as (_ & _ & H). (unfold img, msk in *; congruence).
    + now repeat split.
    + reflexivity.
  - assert (ndim img = 2) as Hd by (unfold ndim, img; now rewrite Hsi).
    assert (shape img = shape msk) as He by (unfold img, msk; congruence).
    fold img msk.
    destruct (fmm_core _ _ radius) as [buf|] eqn:Ecore; cbn [fst].
    + split; [|split; [|split; [|split]]]; split; intros H;
        try discriminate; try contradiction;
        try (destruct H as [site H]; discriminate);
        try (destruct H; lia);
        try (destruct H as (_ & _ & H); unfold img, msk in *; congruence);
        try (destruct H as (_ & _ & _ & H); contradiction).
      destruct H as [H|[H|[H|[H|(rows' & cols' & Hs' & Hn & _)]]]];
        try contradiction; try lia;
        try (unfold img, msk in *; congruence).
    + unfold core_failure.
      destruct (fmm_core_rejects _ _ radius) eqn:Erej;
        (split; [|split; [|split; [|split]]]; split; intros H);
        try discriminate; try contradiction;
        try (destruct H as [site H]; discriminate);
        try (now exists Core);
        try (destruct H; lia);
        try (destruct H as (_ & _ & H); unfold img, msk in *; congruence);
        try (destruct H as (_ & _ & _ & H); contradiction).
      * right. right. right. right. exists rows, cols.
        split; [exact Hsi|]. split; assumption.
      * destruct H as [H|[H|[H|[H|(rows' & cols' & Hs' & _ & Hj)]]]];
          try contradiction; try lia;
          try (unfold img, msk in *; congruence).
Qed.


(** C10: whatever the outcome, the call leaves every array object that
    existed before it, the caller's image and mask among them, with the
    contents it had: every write goes to an array allocated inside the
    call. *)
Theorem inpaint_fmm_keeps_arguments (w : world) (image mask : loc) (radius : Z) :
  let w' := snd (inpaint_fmm img_as_ubyte ubyte_raises ubyte_same_object
                   fmm_core fmm_core_rejects image mask radius w) in
  image < length (heap w) -> mask < length (heap w) ->
  nth image (heap w') empty_array = nth image (heap w) empty_array /\
  nth mask (heap w') empty_array = nth mask (heap w) empty_array /\
  forall l, l < length (heap w) ->
    nth l (heap w') empty_array = nth l (heap w) empty_array.
Proof.
  intros w' Hi Hm.
  assert (forall l, l < length (heap w) ->
            nth l (heap w') empty_array = nth l (heap w) empty_array) as Hall.
  { intros l Hl. subst w'.
    destruct (@run_cases w image mask radius Hi Hm)
      as [(Hne & Hrun)|[(He & Hr & Hrun)|[(He & Hr & Hc & Hrun)
         |[(He & Hr & Hc & Hd & h1 & Hh1 & Hrun)
          |(rows & cols & Hsi & Hsm & Hr & Hc & h1 & Hh1 & Hrun)]]]];
      unfold run in Hrun; rewrite Hrun.
    - reflexivity.
    - reflexivity.
    - reflexivity.
    - cbn [snd heap]. destruct Hh1 as [->| ->]; [reflexivity|].
      now apply nth_front.
    - assert (nth l h1 empty_array = nth l (heap w) empty_array) as Hh.
      { destruct Hh1 as [->| ->]; [reflexivity|]. now apply nth_front. }
      assert (l < length h1) as Hl1.
      { destruct Hh1 as [->| ->]; [exact Hl|]. rewrite length_app. lia. }
      destruct (fmm_core _ _ radius); cbn [snd heap];
        now rewrite nth_front. }
  split; [now apply Hall|]. split; [now apply Hall|exact Hall].
Qed.

(** C3: for a valid [rows x cols] input whose conversion returns, the core
    is called once, on two arrays of shape [(rows + 2, cols + 2)]; the inner
    window of the first is the converted image, the inner window of the
    second is the mask (cast to [uint8], so a mask of zeros and ones is kept
    as it is), and the outer ring of both is zero: the border of the padded
    mask is KNOWN. *)
Theorem inpaint_fmm_working_grid
  (w : world) (image mask : loc) (radius : Z) (rows cols : nat) :
  let img := nth image (heap w) empty_array in
  let msk := nth mask (heap w) empty_array in
  let pi := padded np_double rows cols (img_as_ubyte img) in
  let pm := padded np_uint8 rows cols msk in
  let r := inpaint_fmm img_as_ubyte ubyte_raises ubyte_same_object
             fmm_core fmm_core_rejects image mask radius w in
  image < length (heap w) -> mask < length (heap w) ->
  shape img = [rows; cols] -> shape msk = [rows; cols] ->
  (1 <= radius)%Z ->
  (ubyte_raises img = false ->
   In (Call_inpaint_fmm pi pm radius) (calls (snd r))) /\
  (forall a m k, In (Call_inpaint_fmm a m k) (calls (snd r)) ->
     In (Call_inpaint_fmm a m k) (calls w) \/ (a = pi /\ m = pm /\ k = radius)) /\
  shape pi = [rows + 2; cols + 2] /\ shape pm = [rows + 2; cols + 2] /\
  (forall i j, i < rows -> j < cols ->
     get2 pi (i + 1) (j + 1) = get2 (img_as_ubyte img) i j /\
     get2 pm (i + 1) (j + 1) = cast_to np_uint8 (get2 msk i j) /\
     (get2 msk i j = 0%Q \/ get2 msk i j = 1%Q ->
      get2 pm (i + 1) (j + 1) = get2 msk i j)) /\
  (forall i j, i < rows + 2 -> j < cols + 2 ->
     i = 0 \/ i = rows + 1 \/ j = 0 \/ j = cols + 1 ->
     get2 pm i j = 0%Q /\ get2 pi i j = 0%Q).
Proof.
  intros img msk pi pm r Hi Hm Hsi Hsm Hr. subst r.
  split; [|split; [|split; [|split; [|split]]]].
  - intros Hc.
    pose proof (@run_2d_calls w image mask radius rows cols Hi Hm Hsi Hsm Hr Hc)
      as Hcalls.
    unfold run in Hcalls. fold img msk in Hcalls. fold pi pm in Hcalls.
    rewrite Hcalls.
    apply in_or_app. right. apply in_or_app. left.
    unfold calls_to_core. simpl. tauto.
  - intros a m k Hin. destruct (ubyte_raises img) eqn:Hc.
    + assert (shape img = shape msk) as He by (now rewrite Hsi, Hsm).
      pose proof (@run_conversion_raises w image mask radius He Hr Hc) as Hrun.
      unfold run in Hrun. rewrite Hrun in Hin. cbn [snd calls] in Hin.
      apply in_app_or in Hin. destruct Hin as [Hin|[Hin|[]]];
        [now left|discriminate].
    + pose proof (@run_2d_calls w image mask radius rows cols
                    Hi Hm Hsi Hsm Hr Hc) as Hcalls.
      unfold run in Hcalls. fold img msk in Hcalls. fold pi pm in Hcalls.
      rewrite Hcalls in Hin.
      apply in_app_or in Hin. destruct Hin as [Hin|Hin]; [now left|right].
      apply in_app_or in Hin. destruct Hin as [Hin|Hin].
      * unfold calls_to_core in Hin. simpl in Hin.
        destruct Hin as [Hin|[Hin|[Hin|[Hin|[]]]]]; try discriminate.
        injection Hin as <- <- <-. tauto.
      * destruct (fmm_core pi pm radius); simpl in Hin;
          [destruct Hin as [Hin|[Hin|[Hin|[]]]]; discriminate|contradiction].
  - reflexivity.
  - reflexivity.
  - intros i j Hlt Hlt'. split; [|split].
    + unfold pi. now rewrite padded_inside.
    + unfold pm. now rewrite padded_inside.
    + intros H01. unfold pm. rewrite padded_inside by assumption.
      destruct H01 as [-> | ->]; reflexivity.
  - intros i j Hlt Hlt' Hb. split; unfold pi, pm; now apply padded_border.
Qed.

(** C4: for a valid [rows x cols] input a returned array has shape
    [(rows, cols)] and type [uint8]; each of its elements is an integer [z]
    between 0 and 255 fixed by the value [v] the core left at the same place
    of the inner window: [z] is 255 where [v] is 255 or more, 0 where [v] is
    0 or less, and otherwise the integer nearest to [v], the even one of the
    two when [v] lies halfway. The call returns whenever the conversion and
    the core do. *)
Theorem inpaint_fmm_result
  (w : world) (image mask : loc) (radius : Z) (rows cols : nat) :
  let img := nth image (heap w) empty_array in
  let msk := nth mask (heap w) empty_array in
  let pi := padded np_double rows cols (img_as_ubyte img) in
  let pm := padded np_uint8 rows cols msk in
  let r := inpaint_fmm img_as_ubyte ubyte_raises ubyte_same_object
             fmm_core fmm_core_rejects image mask radius w in
  image < length (heap w) -> mask < length (heap w) ->
  shape img = [rows; cols] -> shape msk = [rows; cols] ->
  (1 <= radius)%Z ->
  (ubyte_raises img = false -> fmm_core pi pm radius <> None ->
   exists l, fst r = Return l) /\
  (forall l, fst r = Return l ->
     let out := nth l (heap (snd r)) empty_array in
     shape out = [rows; cols] /\
     dtype_of out = np_uint8 /\
     length (data out) = rows * cols /\
     Forall is_ubyte (data out) /\
     exists buf, fmm_core pi pm radius = Some buf /\
       forall i j, i < rows -> j < cols ->
         let v := get2 (mk_ndarray [rows + 2; cols + 2] np_double buf)
                    (i + 1) (j + 1) in
         exists z : Z,
           get2 out i j = inject_Z z /\ (0 <= z <= 255)%Z /\
           ((255 <= v)%Q -> z = 255%Z) /\
           ((v <= 0)%Q -> z = 0%Z) /\
           ((0 <= v <= 255)%Q -> (Qabs (inject_Z z - v) <= 1 # 2)%Q) /\
           (forall k : Z, (0 <= k < 255)%Z ->
              (v == inject_Z k + (1 # 2))%Q ->
              z = if Z.even k then k else (k + 1)%Z)).
Proof.
  intros img msk pi pm r Hi Hm Hsi Hsm Hr. subst r. split.
  - intros Hc Hsome.
    pose proof (@run_2d_outcome w image mask radius rows cols
                  Hi Hm Hsi Hsm Hr Hc) as Ho.
    unfold run in Ho. fold img msk in Ho. fold pi pm in Ho.
    destruct (fmm_core pi pm radius) as [buf|]; [|congruence].
    destruct Ho as (l & Hl & _). now exists l.
  - intros l Hl.
    pose proof (@returned_converted w image mask radius l Hi Hm Hl) as Hc.
    pose proof (@run_2d_outcome w image mask radius rows cols
                  Hi Hm Hsi Hsm Hr Hc) as Ho.
    unfold run in Ho. fold img msk in Ho. fold pi pm in Ho.
    destruct (fmm_core pi pm radius) as [buf|].
    2:{ rewrite Ho in Hl. discriminate. }
    destruct Ho as (l' & Hl' & Hn). rewrite Hl in Hl'. injection Hl' as <-.
    cbv zeta. rewrite Hn.
    set (a := mk_ndarray [rows + 2; cols + 2] np_double buf).
    assert (nrows a - 2 = rows) as Hrows by (cbn; lia).
    assert (ncols a - 2 = cols) as Hcols by (cbn; lia).
    split; [|split; [|split; [|split]]].
    + rewrite shape_finish. now rewrite Hrows, Hcols.
    + reflexivity.
    + rewrite data_finish, length_tabulate2. now rewrite Hrows, Hcols.
    + apply finish_ubyte.
    + exists buf. split; [reflexivity|]. intros i j Hlt Hlt'. cbv zeta.
      rewrite get2_finish by lia. rewrite finish1_value. subst a.
      match goal with
      | |- context [clip1 0 255 ?x] => generalize x
      end.
      intros v.
      exists (round_half_even (clip1 0 255 v)).
      split; [reflexivity|]. split; [|split; [|split; [|split]]].
      * apply round_half_even_range, clip1_range.
      * intros Hv. rewrite clip1_high by exact Hv. reflexivity.
      * intros Hv. rewrite clip1_low by exact Hv. reflexivity.
      * intros Hv. pose proof (round_half_even_near (clip1 0 255 v)) as Hn'.
        pose proof (clip1_inside Hv) as Hcl. now rewrite Hcl in Hn' at 2.
      * intros k Hk Hv. rewrite <- round_half_even_tie.
        apply round_half_even_comp. rewrite <- Hv. apply clip1_inside.
        rewrite Hv.
        assert (inject_Z 0 <= inject_Z k)%Q as H0
          by (rewrite <- Zle_Qle; lia).
        assert (inject_Z k <= inject_Z 254)%Q as H254
          by (rewrite <- Zle_Qle; lia).
        change (inject_Z 0) with 0%Q in H0.
        change (inject_Z 254) with 254%Q in H254. lra.
Qed.



End WrapperRun.

(** ** The claims on the examples *)

Lemma inpaint_fmm_value_error_iff_witness :
  fst (inpaint_fmm scale_to_ubyte scale_raises is_uint8 Qfmm_core
         never_rejects 0 1 0%Z ex_world)
    = Raise (ValueError BadRadius).
Proof.
  pose proof (@inpaint_fmm_value_error_iff scale_to_ubyte scale_raises
                is_uint8 Qfmm_core never_rejects
                scale_to_ubyte_shape scale_to_ubyte_same ex_world 0 1 0%Z)
    as H.
  cbv zeta in H. destruct H as (_ & _ & H & _); [cbn; lia|cbn; lia|].
  apply H. split; [reflexivity|lia].
Defined.

(** C2 as stated fails: image and mask of the same three-dimensional shape
    and radius 5 raise a [ValueError], although the shapes match and the
    radius is positive. *)
Lemma value_error_iff_refuted :
  ~ (forall (w : world) (image mask : loc) (radius : Z),
       image < length (heap w) -> mask < length (heap w) ->
       (raises_ValueError
          (fst (inpaint_fmm scale_to_ubyte scale_raises is_uint8 Qfmm_core
                  never_rejects image mask radius w)) <->
        shape (nth image (heap w) empty_array)
          <> shape (nth mask (heap w) empty_array) \/ (radius <= 0)%Z)).
Proof.
  intros H.
  destruct (H ex_cube_world 0 1 5%Z) as [Himp _]; [cbn; lia|cbn; lia|].
  destruct Himp as [Hs|Hr].
  - exists Unpack. reflexivity.
  - apply Hs. reflexivity.
  - lia.
Qed.



Lemma inpaint_fmm_keeps_arguments_witness :
  nth 0 (heap (snd (inpaint_fmm scale_to_ubyte scale_raises is_uint8
                      Qfmm_core never_rejects 0 1 5%Z ex_float_world)))
      empty_array = ex_float_image.
Proof.
  pose proof (@inpaint_fmm_keeps_arguments scale_to_ubyte scale_raises
                is_uint8 Qfmm_core never_rejects
                scale_to_ubyte_shape scale_to_ubyte_same ex_float_world
                0 1 5%Z)
    as H.
  cbv zeta in H. destruct H as (H & _); [cbn; lia|cbn; lia|exact H].
Defined.

Lemma inpaint_fmm_working_grid_witness :
  In (Call_inpaint_fmm (padded np_double 2 2 ex_image)
        (padded np_uint8 2 2 ex_mask) 5%Z)
     (calls (snd (inpaint_fmm scale_to_ubyte scale_raises is_uint8 Qfmm_core
                    never_rejects 0 1 5%Z ex_world))).
Proof.
  pose proof (@inpaint_fmm_working_grid scale_to_ubyte scale_raises is_uint8
                Qfmm_core never_rejects
                scale_to_ubyte_shape scale_to_ubyte_same ex_world 0 1 5%Z 2 2)
    as H.
  cbv zeta in H.
  destruct H as (H & _);
    [cbn; lia|cbn; lia|reflexivity|reflexivity|lia|].
  apply H. reflexivity.
Defined.

Lemma inpaint_fmm_result_witness :
  exists l,
    fst (inpaint_fmm scale_to_ubyte scale_raises is_uint8 Qfmm_core
           never_rejects 0 1 5%Z ex_world)
      = Return l.
Proof.
  pose proof (@inpaint_fmm_result scale_to_ubyte scale_raises is_uint8
                Qfmm_core never_rejects
                scale_to_ubyte_shape scale_to_ubyte_same ex_world 0 1 5%Z 2 2)
    as H.
  cbv zeta in H.
  destruct H as (H & _);
    [cbn; lia|cbn; lia|reflexivity|reflexivity|lia|].
  apply H; [reflexivity|]. vm_compute. discriminate.
Defined.




(** ** Further behaviour of the wrapper *)

Section WrapperEdges.

Variable img_as_ubyte : ndarray -> ndarray.
Variable ubyte_raises : ndarray -> bool.
Variable ubyte_same_object : ndarray -> bool.
Variable fmm_core : ndarray -> ndarray -> Z -> option (list Q).
Variable fmm_core_rejects : ndarray -> ndarray -> Z -> bool.

Hypothesis ubyte_shape : forall a,
  ubyte_raises a = false -> shape (img_as_ubyte a) = shape a.
Hypothesis ubyte_same : forall a,
  ubyte_raises a = false -> ubyte_same_object a = true -> img_as_ubyte a = a.

(** A returned element is the element the core left in the inner window,
    clipped and rounded. *)
Lemma returned_pixels
  (w : world) (image mask : loc) (radius : Z) (rows cols : nat) (l : loc) :
  let img := nth image (heap w) empty_array in
  let msk := nth mask (heap w) empty_array in
  let pi := padded np_double rows cols (img_as_ubyte img) in
  let pm := padded np_uint8 rows cols msk in
  let r := inpaint_fmm img_as_ubyte ubyte_raises ubyte_same_object
             fmm_core fmm_core_rejects image mask radius w in
  image < length (heap w) -> mask < length (heap w) ->
  shape img = [rows; cols] -> shape msk = [rows; cols] ->
  (1 <= radius)%Z ->
  fst r = Return l ->
  exists buf, fmm_core pi pm radius = Some buf /\
    nth l (heap (snd r)) empty_array =
      finish (mk_ndarray [rows + 2; cols + 2] np_double buf) /\
    forall i j, i < rows -> j < cols ->
      get2 (nth l (heap (snd r)) empty_array) i j =
        finish1 (nth ((i + 1) * (cols + 2) + (j + 1)) buf 0%Q).
Proof.
  intros img msk pi pm r Hi Hm Hsi Hsm Hr Hl. subst r.
  pose proof (@returned_converted img_as_ubyte ubyte_raises ubyte_same_object fmm_core
                fmm_core_rejects ubyte_shape ubyte_same
                w image mask radius l Hi Hm Hl) as Hc.
  pose proof (@run_2d_outcome img_as_ubyte ubyte_raises ubyte_same_object fmm_core
                fmm_core_rejects ubyte_shape ubyte_same
                w image mask radius rows cols Hi Hm Hsi Hsm Hr Hc) as Ho.
  fold img msk in Ho. fold pi pm in Ho.
  destruct (fmm_core pi pm radius) as [buf|]; [|congruence].
  destruct Ho as (l' & Hl' & Hn). rewrite Hl in Hl'. injection Hl' as <-.
  exists buf. split; [reflexivity|]. split; [exact Hn|].
  intros i j Hlt Hlt'. rewrite Hn. rewrite get2_finish by (cbn; lia).
  reflexivity.
Qed.

(** X1: a call leaves no trace (no collaborator called, no array allocated,
    the world as it was) exactly when one of the two parameter checks
    rejects it: the shapes differ or the radius is below 1. Every other call
    has at least recorded the conversion of the image. *)
Theorem inpaint_fmm_no_trace_iff (w : world) (image mask : loc) (radius : Z) :
  let img := nth image (heap w) empty_array in
  let msk := nth mask (heap w) empty_array in
  image < length (heap w) -> mask < length (heap w) ->
  (snd (inpaint_fmm img_as_ubyte ubyte_raises ubyte_same_object
             fmm_core fmm_core_rejects image mask radius w) = w <->
   shape img <> shape msk \/ (radius < 1)%Z).
Proof.
  intros img msk Hi Hm.
  destruct (@run_cases img_as_ubyte ubyte_raises ubyte_same_object fmm_core
                fmm_core_rejects ubyte_shape ubyte_same
              w image mask radius Hi Hm)
    as [(Hne & Hrun)|[(He & Hr & Hrun)|[(He & Hr & Hc & Hrun)
       |[(He & Hr & Hc & Hd & h1 & _ & Hrun)
        |(rows & cols & Hsi & Hsm & Hr & Hc & h1 & _ & Hrun)]]]];
    rewrite Hrun.
  - cbn [snd]. split; [intros _; now left|reflexivity].
  - cbn [snd]. split; [intros _; now right|reflexivity].
  - cbn [snd]. split.
    + intros H. apply (f_equal calls) in H. cbn [calls] in H.
      now apply app_cons_neq in H.
    + intros [H|H]; [contradiction|lia].
  - cbn [snd]. split.
    + intros H. apply (f_equal calls) in H. cbn [calls] in H.
      now apply app_cons_neq in H.
    + intros [H|H]; [contradiction|lia].
  - assert (shape img = shape msk) as He by (unfold img, msk; congruence).
    split.
    + intros H. apply (f_equal calls) in H.
      destruct (fmm_core _ _ radius); cbn [snd calls] in H;
        unfold calls_to_core in H; cbn [app] in H;
        now apply app_cons_neq in H.
    + intros [H|H]; [contradiction|lia].
Qed.

(** X2: a returned array is a new object, the last one the call allocated:
    its location lies beyond every object that existed before the call, so it
    is neither the caller's image nor the caller's mask. *)
Theorem inpaint_fmm_returns_fresh
  (w : world) (image mask : loc) (radius : Z) (l : loc) :
  let r := inpaint_fmm img_as_ubyte ubyte_raises ubyte_same_object
             fmm_core fmm_core_rejects image mask radius w in
  image < length (heap w) -> mask < length (heap w) ->
  fst r = Return l ->
  length (heap w) <= l /\ S l = length (heap (snd r)) /\
  l <> image /\ l <> mask.
Proof.
  intros r Hi Hm Hl. subst r.
  destruct (@run_cases img_as_ubyte ubyte_raises ubyte_same_object fmm_core
                fmm_core_rejects ubyte_shape ubyte_same
              w image mask radius Hi Hm)
    as [(Hne & Hrun)|[(He & Hr & Hrun)|[(He & Hr & Hc & Hrun)
       |[(He & Hr & Hc & Hd & h1 & _ & Hrun)
        |(rows & cols & Hsi & Hsm & Hr & Hc & h1 & Hh1 & Hrun)]]]];
    rewrite Hrun in Hl |- *; try discriminate Hl.
  destruct (fmm_core _ _ radius); [|discriminate Hl].
  cbn [fst snd heap] in Hl |- *. injection Hl as <-.
  rewrite length_app. cbn [length].
  assert (length (heap w) <= length h1) as Hle.
  { destruct Hh1 as [->| ->]; [lia|]. rewrite length_app. lia. }
  lia.
Qed.

(** X3: the result saturates, it does not wrap around: where the core left
    a value of 255 or more the returned element is 255, and where it left a
    value of 0 or less the returned element is 0. *)
Theorem inpaint_fmm_saturates
  (w : world) (image mask : loc) (radius : Z) (rows cols : nat) (l : loc) :
  let img := nth image (heap w) empty_array in
  let msk := nth mask (heap w) empty_array in
  let pi := padded np_double rows cols (img_as_ubyte img) in
  let pm := padded np_uint8 rows cols msk in
  let r := inpaint_fmm img_as_ubyte ubyte_raises ubyte_same_object
             fmm_core fmm_core_rejects image mask radius w in
  image < length (heap w) -> mask < length (heap w) ->
  shape img = [rows; cols] -> shape msk = [rows; cols] ->
  (1 <= radius)%Z ->
  fst r = Return l ->
  exists buf, fmm_core pi pm radius = Some buf /\
    forall i j, i < rows -> j < cols ->
      let v := nth ((i + 1) * (cols + 2) + (j + 1)) buf 0%Q in
      let out := get2 (nth l (heap (snd r)) empty_array) i j in
      ((255 <= v)%Q -> out = 255%Q) /\ ((v <= 0)%Q -> out = 0%Q).
Proof.
  intros img msk pi pm r Hi Hm Hsi Hsm Hr Hl.
  destruct (@returned_pixels w image mask radius rows cols l Hi Hm Hsi Hsm Hr Hl)
    as (buf & Hb & _ & Hpix).
  exists buf. split; [exact Hb|]. intros i j Hlt Hlt' v out.
  unfold out, r. rewrite Hpix by assumption. fold v.
  rewrite finish1_value. split; intros Hv.
  - now rewrite clip1_high.
  - now rewrite clip1_low.
Qed.

(** X4: a returned element is the integer nearest to the value the core
    left: for a core value between 0 and 255 the two differ by at most 1/2. *)
Theorem inpaint_fmm_rounds_to_nearest
  (w : world) (image mask : loc) (radius : Z) (rows cols : nat) (l : loc) :
  let img := nth image (heap w) empty_array in
  let msk := nth mask (heap w) empty_array in
  let pi := padded np_double rows cols (img_as_ubyte img) in
  let pm := padded np_uint8 rows cols msk in
  let r := inpaint_fmm img_as_ubyte ubyte_raises ubyte_same_object
             fmm_core fmm_core_rejects image mask radius w in
  image < length (heap w) -> mask < length (heap w) ->
  shape img = [rows; cols] -> shape msk = [rows; cols] ->
  (1 <= radius)%Z ->
  fst r = Return l ->
  exists buf, fmm_core pi pm radius = Some buf /\
    forall i j, i < rows -> j < cols ->
      let v := nth ((i + 1) * (cols + 2) + (j + 1)) buf 0%Q in
      let out := get2 (nth l (heap (snd r)) empty_array) i j in
      is_ubyte out /\ ((0 <= v <= 255)%Q -> (Qabs (out - v) <= 1 # 2)%Q).
Proof.
  intros img msk pi pm r Hi Hm Hsi Hsm Hr Hl.
  destruct (@returned_pixels w image mask radius rows cols l Hi Hm Hsi Hsm Hr Hl)
    as (buf & Hb & _ & Hpix).
  exists buf. split; [exact Hb|]. intros i j Hlt Hlt' v out.
  unfold out, r. rewrite Hpix by assumption. fold v.
  split; [apply finish1_ubyte|]. intros Hv.
  rewrite finish1_value.
  pose proof (round_half_even_near (clip1 0 255 v)) as Hn.
  pose proof (clip1_inside Hv) as Hc.
  now rewrite Hc in Hn at 2.
Qed.

(** X5: a core value halfway between two integers goes to the even one
    ([np.round] rounds half to even): [z + 1/2] is returned as [z] when [z]
    is even and as [z + 1] when [z] is odd. *)
Theorem inpaint_fmm_rounds_half_to_even
  (w : world) (image mask : loc) (radius : Z) (rows cols : nat) (l : loc) :
  let img := nth image (heap w) empty_array in
  let msk := nth mask (heap w) empty_array in
  let pi := padded np_double rows cols (img_as_ubyte img) in
  let pm := padded np_uint8 rows cols msk in
  let r := inpaint_fmm img_as_ubyte ubyte_raises ubyte_same_object
             fmm_core fmm_core_rejects image mask radius w in
  image < length (heap w) -> mask < length (heap w) ->
  shape img = [rows; cols] -> shape msk = [rows; cols] ->
  (1 <= radius)%Z ->
  fst r = Return l ->
  exists buf, fmm_core pi pm radius = Some buf /\
    forall i j (z : Z), i < rows -> j < cols -> (0 <= z < 255)%Z ->
      (nth ((i + 1) * (cols + 2) + (j + 1)) buf 0%Q == inject_Z z + (1 # 2))%Q ->
      get2 (nth l (heap (snd r)) empty_array) i j =
        inject_Z (if Z.even z then z else z + 1).
Proof.
  intros img msk pi pm r Hi Hm Hsi Hsm Hr Hl.
  destruct (@returned_pixels w image mask radius rows cols l Hi Hm Hsi Hsm Hr Hl)
    as (buf & Hb & _ & Hpix).
  exists buf. split; [exact Hb|]. intros i j z Hlt Hlt' Hz Hv.
  unfold r. rewrite Hpix by assumption. rewrite finish1_value. f_equal.
  rewrite <- round_half_even_tie. apply round_half_even_comp.
  rewrite <- Hv. apply clip1_inside. rewrite Hv.
  assert (inject_Z 0 <= inject_Z z)%Q as H0 by (rewrite <- Zle_Qle; lia).
  assert (inject_Z z <= inject_Z 254)%Q as H254 by (rewrite <- Zle_Qle; lia).
  change (inject_Z 0) with 0%Q in H0.
  change (inject_Z 254) with 254%Q in H254. lra.
Qed.

(** X6: clipping and rounding keep the order of the values: of two pixels
    of one result, the one for which the core left the smaller value is not
    returned brighter than the other. *)
Theorem inpaint_fmm_keeps_order
  (w : world) (image mask : loc) (radius : Z) (rows cols : nat) (l : loc) :
  let img := nth image (heap w) empty_array in
  let msk := nth mask (heap w) empty_array in
  let pi := padded np_double rows cols (img_as_ubyte img) in
  let pm := padded np_uint8 rows cols msk in
  let r := inpaint_fmm img_as_ubyte ubyte_raises ubyte_same_object
             fmm_core fmm_core_rejects image mask radius w in
  image < length (heap w) -> mask < length (heap w) ->
  shape img = [rows; cols] -> shape msk = [rows; cols] ->
  (1 <= radius)%Z ->
  fst r = Return l ->
  exists buf, fmm_core pi pm radius = Some buf /\
    forall i j i' j', i < rows -> j < cols -> i' < rows -> j' < cols ->
      (nth ((i + 1) * (cols + 2) + (j + 1)) buf 0%Q
         <= nth ((i' + 1) * (cols + 2) + (j' + 1)) buf 0%Q)%Q ->
      (get2 (nth l (heap (snd r)) empty_array) i j
         <= get2 (nth l (heap (snd r)) empty_array) i' j')%Q.
Proof.
  intros img msk pi pm r Hi Hm Hsi Hsm Hr Hl.
  destruct (@returned_pixels w image mask radius rows cols l Hi Hm Hsi Hsm Hr Hl)
    as (buf & Hb & _ & Hpix).
  exists buf. split; [exact Hb|]. intros i j i' j' H1 H2 H3 H4 Hle.
  unfold r. rewrite !Hpix by assumption. rewrite !finish1_value.
  rewrite <- Zle_Qle. now apply round_half_even_mono, clip1_mono.
Qed.

End WrapperEdges.

(** ** The inner window and the casts into it *)

Lemma tabulate2_ext (A : Type) (R C : nat) (f g : nat -> nat -> A) :
  (forall i j, i < R -> j < C -> f i j = g i j) ->
  tabulate2 R C f = tabulate2 R C g.
Proof.
  intros H. unfold tabulate2. rewrite !flat_map_concat_map. f_equal.
  apply map_ext_in. intros i Hi. apply in_seq in Hi.
  apply map_ext_in. intros j Hj. apply in_seq in Hj. apply H; lia.
Qed.

(** The buffer of a well-formed 2-D array, element by element. *)
Lemma data_tabulate2 (a : ndarray) (r c : nat) :
  well_formed a -> shape a = [r; c] -> data a = tabulate2 r c (get2 a).
Proof.
  intros Hwf Hs. unfold well_formed in Hwf. rewrite Hs in Hwf. simpl in Hwf.
  rewrite Nat.mul_1_r in Hwf.
  apply nth_ext with (d := 0%Q) (d' := 0%Q).
  - now rewrite length_tabulate2.
  - intros n Hn. rewrite Hwf in Hn.
    assert (c <> 0) as Hc by (intros ->; lia).
    assert (n = n / c * c + n mod c) as Hdm.
    { rewrite (Nat.div_mod_eq n c) at 1. lia. }
    assert (n / c < r) as Hq by (apply Nat.Div0.div_lt_upper_bound; lia).
    assert (n mod c < c) as Hm by (now apply Nat.mod_upper_bound).
    rewrite Hdm at 2. rewrite nth_tabulate2 by assumption.
    unfold get2, ncols. rewrite Hs. simpl. now rewrite <- Hdm.
Qed.

Lemma ndarray_eq (a b : ndarray) :
  shape a = shape b -> dtype_of a = dtype_of b -> data a = data b -> a = b.
Proof. destruct a, b. simpl. now intros -> -> ->. Qed.

Lemma ubyte_at (a : ndarray) (r c i j : nat) :
  well_formed a -> shape a = [r; c] -> Forall is_ubyte (data a) ->
  i < r -> j < c -> is_ubyte (get2 a i j).
Proof.
  intros Hwf Hs Hall Hi Hj. unfold get2.
  rewrite Forall_forall in Hall. apply Hall. apply nth_In.
  unfold well_formed in Hwf. rewrite Hwf, Hs. unfold ncols. rewrite Hs.
  simpl. nia.
Qed.

Lemma Qtrunc_small (q : Q) : (-1 < q < 1)%Q -> Qtrunc q = 0%Z.
Proof.
  intros [Hl Hu]. unfold Qtrunc.
  destruct (Qle_bool 0 q) eqn:E.
  - apply Qle_bool_iff in E. destruct (floor_bounds q) as [H1 H2].
    assert (inject_Z (Qfloor q) < inject_Z 1)%Q as Ha
      by (change (inject_Z 1) with 1%Q; lra).
    assert (inject_Z (-1) < inject_Z (Qfloor q))%Q as Hb
      by (change (inject_Z (-1)) with (-1)%Q; lra).
    rewrite <- Zlt_Qlt in Ha, Hb. lia.
  - apply not_true_iff_false in E. rewrite Qle_bool_iff in E.
    unfold Qceiling. destruct (floor_bounds (- q)) as [H1 H2].
    assert (inject_Z (Qfloor (- q)) < inject_Z 1)%Q as Ha
      by (change (inject_Z 1) with 1%Q; lra).
    assert (inject_Z (-1) < inject_Z (Qfloor (- q)))%Q as Hb
      by (change (inject_Z (-1)) with (-1)%Q; lra).
    rewrite <- Zlt_Qlt in Ha, Hb. lia.
Qed.

Lemma cast_ubyte_small (q : Q) : (-1 < q < 1)%Q -> cast_to np_uint8 q = 0%Q.
Proof. intros H. unfold cast_to. now rewrite Qtrunc_small. Qed.

Lemma cast_ubyte_wraps (k : Z) : cast_to np_uint8 (inject_Z (256 * k)) = 0%Q.
Proof.
  unfold cast_to. rewrite Qtrunc_inject_Z.
  replace (256 * k)%Z with (k * 256)%Z by lia. now rewrite Z.mod_mul.
Qed.

Section WrapperWindow.

Variable img_as_ubyte : ndarray -> ndarray.
Variable ubyte_raises : ndarray -> bool.
Variable ubyte_same_object : ndarray -> bool.
Variable fmm_core : ndarray -> ndarray -> Z -> option (list Q).
Variable fmm_core_rejects : ndarray -> ndarray -> Z -> bool.

Hypothesis ubyte_shape : forall a,
  ubyte_raises a = false -> shape (img_as_ubyte a) = shape a.
Hypothesis ubyte_same : forall a,
  ubyte_raises a = false -> ubyte_same_object a = true -> img_as_ubyte a = a.

(** X7: padding, clipping, rounding and stripping change nothing by
    themselves: a pixel the core leaves as it found it is returned with the
    value of the converted image, and when the core leaves the whole buffer
    as it found it the returned array is equal to the converted image. *)
Theorem inpaint_fmm_transparent
  (w : world) (image mask : loc) (radius : Z) (rows cols : nat) (l : loc)
  (buf : list Q) :
  let img := nth image (heap w) empty_array in
  let msk := nth mask (heap w) empty_array in
  let converted := img_as_ubyte img in
  let pi := padded np_double rows cols converted in
  let pm := padded np_uint8 rows cols msk in
  let r := inpaint_fmm img_as_ubyte ubyte_raises ubyte_same_object
             fmm_core fmm_core_rejects image mask radius w in
  let out := nth l (heap (snd r)) empty_array in
  image < length (heap w) -> mask < length (heap w) ->
  shape img = [rows; cols] -> shape msk = [rows; cols] ->
  (1 <= radius)%Z ->
  fmm_core pi pm radius = Some buf ->
  fst r = Return l ->
  (forall i j, i < rows -> j < cols ->
     nth ((i + 1) * (cols + 2) + (j + 1)) buf 0%Q = get2 pi (i + 1) (j + 1) ->
     is_ubyte (get2 converted i j) ->
     get2 out i j = get2 converted i j) /\
  (buf = data pi -> ubyte_array converted -> well_formed converted ->
   out = converted).
Proof.
  intros img msk converted pi pm r out Hi Hm Hsi Hsm Hr Hcore Hl.
  destruct (@returned_pixels img_as_ubyte ubyte_raises ubyte_same_object
              fmm_core fmm_core_rejects ubyte_shape ubyte_same
              w image mask radius rows cols l
              Hi Hm Hsi Hsm Hr Hl) as (buf' & Hb & Hout & Hpix).
  fold img msk in Hb. fold converted in Hb. fold pi pm in Hb.
  rewrite Hcore in Hb. injection Hb as <-.
  assert (forall i j, i < rows -> j < cols ->
            nth ((i + 1) * (cols + 2) + (j + 1)) buf 0%Q
              = get2 pi (i + 1) (j + 1) ->
            is_ubyte (get2 converted i j) ->
            get2 out i j = get2 converted i j) as Hone.
  { intros i j Hlt Hlt' Hsame Hub. unfold out, r.
    rewrite Hpix by assumption. rewrite Hsame. unfold pi.
    rewrite padded_inside by assumption. cbn [cast_to].
    now apply finish1_fixes_ubyte. }
  split; [exact Hone|].
  intros -> [Hdt Hall] Hwf.
  pose proof (@returned_converted img_as_ubyte ubyte_raises ubyte_same_object
                fmm_core fmm_core_rejects ubyte_shape ubyte_same
                w image mask radius l Hi Hm Hl) as Hc.
  assert (shape converted = [rows; cols]) as Hsc
    by exact (eq_trans (ubyte_shape Hc) Hsi).
  apply ndarray_eq.
  - unfold out, r. rewrite Hout, shape_finish. cbn. rewrite Hsc.
    now rewrite !Nat.add_sub.
  - unfold out, r. rewrite Hout, dtype_finish. now rewrite Hdt.
  - rewrite (data_tabulate2 Hwf Hsc).
    rewrite (data_tabulate2 (a := out) (r := rows) (c := cols)).
    + apply tabulate2_ext. intros i j Hlt Hlt'. apply Hone; try assumption.
      * unfold get2, ncols, pi. rewrite shape_padded. reflexivity.
      * now apply ubyte_at with (r := rows) (c := cols).
    + unfold well_formed, out, r. rewrite Hout, shape_finish, data_finish.
      rewrite length_tabulate2. simpl. lia.
    + unfold out, r. rewrite Hout, shape_finish. cbn.
      now rewrite !Nat.add_sub.
Qed.

(** X8: the mask is stored into a [uint8] array before the core sees it
    (the core is called on that array whenever the conversion of the image
    returns). An element that is an integer between 0 and 255 is handed over
    as it is;
    an element strictly between -1 and 1 (a float mask holding 0.5, say) and
    an integer multiple of 256 are handed over as 0, that is as pixels that
    are not to be inpainted, although they are not zero. *)
Theorem inpaint_fmm_mask_cast
  (w : world) (image mask : loc) (radius : Z) (rows cols : nat) :
  let img := nth image (heap w) empty_array in
  let msk := nth mask (heap w) empty_array in
  let pi := padded np_double rows cols (img_as_ubyte img) in
  let pm := padded np_uint8 rows cols msk in
  let r := inpaint_fmm img_as_ubyte ubyte_raises ubyte_same_object
             fmm_core fmm_core_rejects image mask radius w in
  image < length (heap w) -> mask < length (heap w) ->
  shape img = [rows; cols] -> shape msk = [rows; cols] ->
  (1 <= radius)%Z ->
  (ubyte_raises img = false ->
   In (Call_inpaint_fmm pi pm radius) (calls (snd r))) /\
  forall i j, i < rows -> j < cols ->
    (is_ubyte (get2 msk i j) -> get2 pm (i + 1) (j + 1) = get2 msk i j) /\
    ((-1 < get2 msk i j < 1)%Q -> get2 pm (i + 1) (j + 1) = 0%Q) /\
    (forall k : Z, get2 msk i j = inject_Z (256 * k) ->
       get2 pm (i + 1) (j + 1) = 0%Q).
Proof.
  intros img msk pi pm r Hi Hm Hsi Hsm Hr. split.
  - intros Hc. unfold r.
    rewrite (@run_2d_calls img_as_ubyte ubyte_raises ubyte_same_object fmm_core
               fmm_core_rejects ubyte_shape ubyte_same
               w image mask radius rows cols Hi Hm Hsi Hsm Hr Hc).
    apply in_or_app. right. apply in_or_app. left.
    unfold calls_to_core. simpl. tauto.
  - intros i j Hlt Hlt'. unfold pm. rewrite padded_inside by assumption.
    fold msk. split; [|split].
    + intros (z & -> & Hz). now apply cast_ubyte.
    + apply cast_ubyte_small.
    + intros k ->. apply cast_ubyte_wraps.
Qed.

(** X9: an image without pixels is not rejected by the wrapper. For a shape
    with no rows or no columns, once the conversion has returned, the core is
    still called, on a grid that is border all over (image and mask zero
    everywhere); a [ValueError] is raised only if the core raises one, and
    what is returned is an array of the shape of the input without any
    element. *)
Theorem inpaint_fmm_empty_image
  (w : world) (image mask : loc) (radius : Z) (rows cols : nat) :
  let img := nth image (heap w) empty_array in
  let msk := nth mask (heap w) empty_array in
  let pi := padded np_double rows cols (img_as_ubyte img) in
  let pm := padded np_uint8 rows cols msk in
  let r := inpaint_fmm img_as_ubyte ubyte_raises ubyte_same_object
             fmm_core fmm_core_rejects image mask radius w in
  image < length (heap w) -> mask < length (heap w) ->
  shape img = [rows; cols] -> shape msk = [rows; cols] ->
  (1 <= radius)%Z ->
  rows = 0 \/ cols = 0 ->
  ubyte_raises img = false ->
  (raises_ValueError (fst r) <->
     fmm_core pi pm radius = None /\ fmm_core_rejects pi pm radius = true) /\
  In (Call_inpaint_fmm pi pm radius) (calls (snd r)) /\
  (forall i j, i < rows + 2 -> j < cols + 2 ->
     get2 pi i j = 0%Q /\ get2 pm i j = 0%Q) /\
  (forall l, fst r = Return l ->
     shape (nth l (heap (snd r)) empty_array) = [rows; cols] /\
     data (nth l (heap (snd r)) empty_array) = []).
Proof.
  intros img msk pi pm r Hi Hm Hsi Hsm Hr Hempty Hc.
  pose proof (@run_2d_outcome img_as_ubyte ubyte_raises ubyte_same_object fmm_core
               fmm_core_rejects ubyte_shape ubyte_same
                w image mask radius rows cols Hi Hm Hsi Hsm Hr Hc) as Ho.
  fold img msk in Ho. fold pi pm in Ho. fold r in Ho.
  split; [|split; [|split]].
  - destruct (fmm_core pi pm radius).
    + destruct Ho as (l0 & Hl0 & _). rewrite Hl0. split.
      * intros [site Hs]. discriminate.
      * intros [H _]. discriminate.
    + rewrite Ho. unfold core_failure.
      destruct (fmm_core_rejects pi pm radius); split.
      * intros _. now split.
      * intros _. now exists Core.
      * intros [site Hs]. discriminate.
      * intros [_ H]. discriminate.
  - unfold r.
    rewrite (@run_2d_calls img_as_ubyte ubyte_raises ubyte_same_object fmm_core
               fmm_core_rejects ubyte_shape ubyte_same
               w image mask radius rows cols Hi Hm Hsi Hsm Hr Hc).
    apply in_or_app. right. apply in_or_app. left.
    unfold calls_to_core. simpl. tauto.
  - intros i j Hlt Hlt'. split; apply padded_border; try assumption; lia.
  - intros l Hl. destruct (fmm_core pi pm radius) as [buf|]; [|congruence].
    destruct Ho as (l' & Hl' & Hn). rewrite Hl in Hl'. injection Hl' as <-.
    rewrite Hn, shape_finish, data_finish. cbn [nrows ncols shape nth].
    rewrite !Nat.add_sub. split; [reflexivity|].
    apply length_zero_iff_nil. rewrite length_tabulate2.
    destruct Hempty as [-> | ->]; lia.
Qed.

End WrapperWindow.

(** ** The further properties on the examples *)

Lemma inpaint_fmm_no_trace_iff_witness :
  snd (inpaint_fmm scale_to_ubyte scale_raises is_uint8 Qfmm_core
         never_rejects 0 1 0%Z ex_world)
    = ex_world.
Proof.
  pose proof (@inpaint_fmm_no_trace_iff scale_to_ubyte scale_raises is_uint8
                Qfmm_core never_rejects
                scale_to_ubyte_shape scale_to_ubyte_same ex_world 0 1 0%Z)
    as H.
  cbv zeta in H. apply H; [cbn; lia|cbn; lia|]. right. lia.
Defined.

Lemma inpaint_fmm_returns_fresh_witness :
  length (heap ex_world) <= 5 /\
  6 = length (heap (snd (inpaint_fmm scale_to_ubyte scale_raises is_uint8
                           Qfmm_core never_rejects 0 1 5%Z ex_world))) /\
  5 <> 0 /\ 5 <> 1.
Proof.
  apply (@inpaint_fmm_returns_fresh scale_to_ubyte scale_raises is_uint8
           Qfmm_core never_rejects
           scale_to_ubyte_shape scale_to_ubyte_same ex_world 0 1 5%Z 5);
    [cbn; lia|cbn; lia|vm_compute; reflexivity].
Defined.

Lemma inpaint_fmm_saturates_witness :
  let out :=
    nth 5 (heap (snd (inpaint_fmm scale_to_ubyte scale_raises is_uint8
                        (ex_affine_core 10 (-100)) never_rejects
                        0 1 5%Z ex_world)))
        empty_array in
  get2 out 0 0 = 0%Q /\ get2 out 1 1 = 255%Q.
Proof.
  destruct (@inpaint_fmm_saturates scale_to_ubyte scale_raises is_uint8
              (ex_affine_core 10 (-100)) never_rejects scale_to_ubyte_shape
              scale_to_ubyte_same ex_world 0 1 5%Z 2 2 5)
    as (buf & Hb & Hpix);
    [cbn; lia|cbn; lia|reflexivity|reflexivity|lia|vm_compute; reflexivity|].
  injection Hb as <-. cbv zeta in Hpix. split.
  - apply (Hpix 0 0); [lia|lia|]. apply Qle_bool_iff. reflexivity.
  - apply (Hpix 1 1); [lia|lia|]. apply Qle_bool_iff. reflexivity.
Defined.

Lemma inpaint_fmm_rounds_to_nearest_witness :
  exists buf,
    Qfmm_core (padded np_double 1 2 (scale_to_ubyte ex_float_image))
      (padded np_uint8 1 2 ex_clear_mask) 5%Z = Some buf /\
    is_ubyte
      (get2 (nth 6 (heap (snd (inpaint_fmm scale_to_ubyte scale_raises
                                 is_uint8 Qfmm_core never_rejects
                                 0 1 5%Z ex_float_world))) empty_array) 0 1).
Proof.
  destruct (@inpaint_fmm_rounds_to_nearest scale_to_ubyte scale_raises
              is_uint8 Qfmm_core never_rejects
              scale_to_ubyte_shape scale_to_ubyte_same ex_float_world
              0 1 5%Z 1 2 6)
    as (buf & Hb & Hpix);
    [cbn; lia|cbn; lia|reflexivity|reflexivity|lia|vm_compute; reflexivity|].
  exists buf. split; [exact Hb|]. apply (Hpix 0 1); lia.
Defined.

Lemma inpaint_fmm_rounds_half_to_even_witness :
  let out :=
    nth 5 (heap (snd (inpaint_fmm scale_to_ubyte scale_raises is_uint8
                        (ex_affine_core (1 # 4) 0) never_rejects
                        0 1 5%Z ex_world)))
        empty_array in
  get2 out 0 0 = 2%Q /\ get2 out 1 0 = 8%Q.
Proof.
  destruct (@inpaint_fmm_rounds_half_to_even scale_to_ubyte scale_raises
              is_uint8 (ex_affine_core (1 # 4) 0) never_rejects
              scale_to_ubyte_shape scale_to_ubyte_same ex_world
              0 1 5%Z 2 2 5)
    as (buf & Hb & Hpix);
    [cbn; lia|cbn; lia|reflexivity|reflexivity|lia|vm_compute; reflexivity|].
  injection Hb as <-. split.
  - apply (Hpix 0 0 2%Z); [lia|lia|lia|reflexivity].
  - apply (Hpix 1 0 7%Z); [lia|lia|lia|reflexivity].
Defined.

Lemma inpaint_fmm_keeps_order_witness :
  let out :=
    nth 5 (heap (snd (inpaint_fmm scale_to_ubyte scale_raises is_uint8
                        (ex_affine_core 10 (-100)) never_rejects
                        0 1 5%Z ex_world)))
        empty_array in
  (get2 out 0 1 <= get2 out 1 1)%Q.
Proof.
  destruct (@inpaint_fmm_keeps_order scale_to_ubyte scale_raises is_uint8
              (ex_affine_core 10 (-100)) never_rejects scale_to_ubyte_shape
              scale_to_ubyte_same ex_world 0 1 5%Z 2 2 5)
    as (buf & Hb & Hpix);
    [cbn; lia|cbn; lia|reflexivity|reflexivity|lia|vm_compute; reflexivity|].
  injection Hb as <-.
  apply (Hpix 0 1 1 1); [lia|lia|lia|lia|].
  apply Qle_bool_iff. reflexivity.
Defined.

Lemma inpaint_fmm_transparent_witness :
  nth 6 (heap (snd (inpaint_fmm scale_to_ubyte scale_raises is_uint8
                      Qfmm_core never_rejects 0 1 5%Z ex_float_world)))
      empty_array
    = scale_to_ubyte ex_float_image.
Proof.
  apply (@inpaint_fmm_transparent scale_to_ubyte scale_raises is_uint8
           Qfmm_core never_rejects
           scale_to_ubyte_shape scale_to_ubyte_same ex_float_world 0 1 5%Z
           1 2 6
           (data (padded np_double 1 2 (scale_to_ubyte ex_float_image))));
    try (cbn; lia); try reflexivity.
  split; [reflexivity|].
  apply Forall_cons; [exists 128%Z; split; [reflexivity|lia]|].
  apply Forall_cons; [exists 255%Z; split; [reflexivity|lia]|].
  apply Forall_nil.
Defined.

Lemma inpaint_fmm_mask_cast_witness :
  get2 (padded np_uint8 1 2 ex_half_mask) 1 1 = 0%Q.
Proof.
  destruct (@inpaint_fmm_mask_cast scale_to_ubyte scale_raises is_uint8
              Qfmm_core never_rejects
              scale_to_ubyte_shape scale_to_ubyte_same ex_half_world 0 1 5%Z
              1 2) as (_ & H);
    [cbn; lia|cbn; lia|reflexivity|reflexivity|lia|].
  destruct (H 0 0) as (_ & Hsmall & _); [lia|lia|].
  apply Hsmall. split; reflexivity.
Defined.

Lemma inpaint_fmm_empty_image_witness :
  data (nth 5 (heap (snd (inpaint_fmm scale_to_ubyte scale_raises is_uint8
                            Qfmm_core never_rejects 0 1 5%Z ex_empty_world)))
          empty_array) = [].
Proof.
  destruct (@inpaint_fmm_empty_image scale_to_ubyte scale_raises is_uint8
              Qfmm_core never_rejects
              scale_to_ubyte_shape scale_to_ubyte_same ex_empty_world 0 1 5%Z
              0 3) as (_ & _ & _ & H);
    [cbn; lia|cbn; lia|reflexivity|reflexivity|lia|left; reflexivity
    |reflexivity|].
  apply (H 5). vm_compute. reflexivity.
Defined.
